(** * Client-side graph state and visualisation engine

    A shallow embedding of [renderer/hooks/useGraph.js] and
    [renderer/components/Graph/GraphVisualizer.jsx]: the filter derivation
    [filteredData], the hover emphasis ([highlightConnected],
    [removeHighlight]), the request/response operations of the [useGraph]
    hook, the push-connection effect with its reconnect timer, and the
    incremental graph deltas; further the drag handlers, and from the main
    process the backend-backed IPC handlers, the preload bridge and the
    [WindowManager]. *)

From Stdlib Require Import QArith Ascii.
From stdpp Require Import base option list strings gmap.

#[local] Set Warnings "-clear-no-such-hyp,-notation-for-abbreviation".

Local Open Scope string_scope.
Local Open Scope nat_scope.
Local Open Scope list_scope.

(** ** JavaScript values used by the renderer *)

Module JS.

(** JS strings are modelled as [string].  [String.prototype.toLowerCase]
    follows the Unicode case mappings and is not written out here: the
    code that calls it takes it as a parameter.  What is written out is
    what it does to a string of ASCII characters, where it turns A-Z into
    a-z and leaves everything else. *)

Definition lower_ascii (c : ascii) : ascii :=
  let n := nat_of_ascii c in
  if (65 <=? n) && (n <=? 90) then ascii_of_nat (n + 32) else c.

Fixpoint ascii_toLowerCase (s : string) : string :=
  match s with
  | EmptyString => EmptyString
  | String c s' => String (lower_ascii c) (ascii_toLowerCase s')
  end.

(** A string of ASCII characters only. *)
Fixpoint is_ascii (s : string) : bool :=
  match s with
  | EmptyString => true
  | String c s' => (nat_of_ascii c <? 128) && is_ascii s'
  end.

(** What is assumed of a [toLowerCase]: on strings of ASCII characters it
    is the function above. *)
Definition agrees_on_ascii (toLowerCase : string → string) : Prop :=
  ∀ s, is_ascii s = true → toLowerCase s = ascii_toLowerCase s.

(** Two characters that are the same letter, whatever the case: equal, or
    a capital A-Z and the character 32 places after it. *)
Definition is_capital (c : ascii) : bool :=
  (65 <=? nat_of_ascii c) && (nat_of_ascii c <=? 90).

Definition same_letter (c d : ascii) : bool :=
  (nat_of_ascii c =? nat_of_ascii d) ||
  (is_capital c && (nat_of_ascii d =? nat_of_ascii c + 32)) ||
  (is_capital d && (nat_of_ascii c =? nat_of_ascii d + 32)).

Fixpoint same_letters (s t : string) : bool :=
  match s, t with
  | EmptyString, EmptyString => true
  | String c s', String d t' => same_letter c d && same_letters s' t'
  | _, _ => false
  end.

(** [startsWith s t]: [t] is a prefix of [s]. *)
Fixpoint startsWith (s t : string) {struct t} : bool :=
  match t, s with
  | EmptyString, _ => true
  | String _ _, EmptyString => false
  | String c t', String d s' => Ascii.eqb c d && startsWith s' t'
  end.

(** [String.prototype.includes]: [t] occurs in [s] as a substring. *)
Fixpoint includes (s t : string) : bool :=
  startsWith s t ||
  match s with
  | EmptyString => false
  | String _ s' => includes s' t
  end.


(** Truthiness of a string: only the empty string is falsy. *)
Definition truthy (s : string) : bool :=
  match s with
  | EmptyString => false
  | String _ _ => true
  end.

(** [Array.prototype.includes] on an array of strings. *)
Definition array_includes (l : list string) (x : string) : bool :=
  bool_decide (x ∈ l).

End JS.

(** ** Data model: nodes, links, snapshots *)

Module Graph.

(** A node object.  [properties] may be missing ([node.properties?.name]);
    when present it is an object used as a map from keys to strings.  The
    layout fields [x], [y], [fx], [fy] are written by the simulation only
    and read by none of the functions below. *)
Record node := Node {
  node_id : string;
  node_type : string;
  node_properties : option (gmap string string)
}.

(** A link endpoint is a bare id or, once the layout has resolved it, the
    node object itself. *)
Inductive endpoint :=
| Id (s : string)
| Ref (n : node).

Record link := Link {
  link_source : endpoint;
  link_target : endpoint;
  link_type : string
}.

Record snapshot := Snapshot {
  nodes : list node;
  links : list link
}.

(** The value of [e.id || e] for an endpoint [e]: a string, or the node
    object itself when its id is falsy.  A bare id [s] has no [id]
    property, so [s.id] is [undefined] and the value is [s]. *)
Inductive key :=
| KStr (s : string)
| KObj (n : node).

Definition endpoint_key (e : endpoint) : key :=
  match e with
  | Id s => KStr s
  | Ref n => if JS.truthy (node_id n) then KStr (node_id n) else KObj n
  end.

(** The identity an endpoint stands for, whatever its form. *)
Definition endpoint_id (e : endpoint) : string :=
  match e with
  | Id s => s
  | Ref n => node_id n
  end.

(** [k === s] for a string [s]: an object is never equal to a string. *)
Definition key_is (k : key) (s : string) : bool :=
  match k with
  | KStr x => String.eqb x s
  | KObj _ => false
  end.

(** [new Set(ids).has(k)] for a set holding strings only. *)
Definition set_has (ids : gset string) (k : key) : bool :=
  match k with
  | KStr x => bool_decide (x ∈ ids)
  | KObj _ => false
  end.

(** [node.properties?.name || ''] and the like. *)
Definition prop (n : node) (k : string) : string :=
  match node_properties n with
  | None => ""
  | Some m => default "" (m !! k)
  end.

(** An embedded reference whose id is the empty string is the one form
    [e.id || e] does not turn into an id. *)
Definition resolvable (e : endpoint) : bool :=
  match e with
  | Id _ => true
  | Ref n => JS.truthy (node_id n)
  end.

Definition link_resolvable (l : link) : bool :=
  resolvable (link_source l) && resolvable (link_target l).

End Graph.

(** ** FilterEngine: [filteredData] of GraphVisualizer.jsx *)

Module FilterEngine.
Import JS Graph.

Record filters := Filters {
  nodeTypes : list string;
  showErrors : bool;
  showCalls : bool;
  searchTerm : string
}.

(** The initial filter state of the component. *)
Definition default_filters : filters :=
  {| nodeTypes := ["File"; "Class"; "Method"; "Function"; "LintError"];
     showErrors := true;
     showCalls := true;
     searchTerm := "" |}.

(** The callback of [graphData.links.filter]. *)
Definition link_pass (f : filters) (nodeIds : gset string) (l : link) : bool :=
  if negb (set_has nodeIds (endpoint_key (link_source l))) ||
     negb (set_has nodeIds (endpoint_key (link_target l)))
  then false
  else if negb (showCalls f) && String.eqb (link_type l) "CALLS" then false
  else true.

Section Platform.

(** [String.prototype.toLowerCase], as the platform provides it. *)
Variable toLowerCase : string → string.

(** The search test inside the node callback. *)
Definition search_ok (f : filters) (n : node) : bool :=
  if truthy (searchTerm f) then
    let searchLower := toLowerCase (searchTerm f) in
    let nodeName := toLowerCase (prop n "name") in
    let nodePath := toLowerCase (prop n "path") in
    if negb (includes nodeName searchLower) && negb (includes nodePath searchLower)
    then false else true
  else true.

(** The callback of [graphData.nodes.filter]. *)
Definition node_pass (f : filters) (n : node) : bool :=
  if negb (array_includes (nodeTypes f) (node_type n)) then false
  else if negb (search_ok f n) then false
  else if negb (showErrors f) && String.eqb (node_type n) "LintError" then false
  else true.

Definition filteredData (graphData : option snapshot) (f : filters) : snapshot :=
  match graphData with
  | None => {| nodes := []; links := [] |}
  | Some g =>
      let ns := List.filter (node_pass f) (nodes g) in
      let nodeIds : gset string := list_to_set (map node_id ns) in
      let ls := List.filter (link_pass f nodeIds) (links g) in
      {| nodes := ns; links := ls |}
  end.

(** A text contains a term case-insensitively: lower-cased, the one
    contains the other.  Which letters count as the same is the
    platform's matter; on ASCII it is [occurs_ignoring_case]. *)
Definition contains_ci (text term : string) : Prop :=
  includes (toLowerCase text) (toLowerCase term) = true.

(** The substring test of a node against a search term. *)
Definition matches (term : string) (n : node) : Prop :=
  term = "" ∨ contains_ci (prop n "name") term ∨ contains_ci (prop n "path") term.

End Platform.

(** Two criteria that differ at most in [searchTerm]. *)
Definition same_but_search (f1 f2 : filters) : Prop :=
  nodeTypes f1 = nodeTypes f2 ∧ showErrors f1 = showErrors f2 ∧
  showCalls f1 = showCalls f2.

(** The ids of the nodes of a view. *)
Definition ids (g : snapshot) : list string := map node_id (nodes g).

(** The gate on CALLS links. *)
Definition calls_gate (f : filters) (l : link) : Prop :=
  showCalls f = true ∨ link_type l ≠ "CALLS".

End FilterEngine.

(** ** InteractionHighlighter: [highlightConnected] and [removeHighlight] *)

Module Highlighter.
Import JS Graph.

(** The body of [links.forEach] in [highlightConnected], on the [Set]
    [connectedNodeIds] kept in insertion order; the set is only ever
    queried with the string [d.id]. *)
Definition add_connected (focus : node) (acc : list key) (l : link) : list key :=
  let sourceId := endpoint_key (link_source l) in
  let targetId := endpoint_key (link_target l) in
  let acc1 := if key_is sourceId (node_id focus)
              then acc ++ [targetId] else acc in
  if key_is targetId (node_id focus)
  then acc1 ++ [sourceId] else acc1.

Definition connectedNodeIds (links : list link) (focus : node) : list key :=
  foldl (add_connected focus) [] links.

(** [connectedNodeIds.has(s)] for a string [s]. *)
Definition has (ks : list key) (s : string) : bool :=
  existsb (λ k, key_is k s) ks.

(** The test shared by the two link style callbacks. *)
Definition incident (focus : node) (d : link) : bool :=
  key_is (endpoint_key (link_source d)) (node_id focus) ||
  key_is (endpoint_key (link_target d)) (node_id focus).

Definition node_opacity (links : list link) (focus d : node) : Q :=
  if String.eqb (node_id d) (node_id focus) ||
     has (connectedNodeIds links focus) (node_id d)
  then 1%Q else (3 # 10)%Q.

Definition link_opacity (focus : node) (d : link) : Q :=
  if incident focus d then 1%Q else (1 # 10)%Q.

Definition link_stroke_width (focus : node) (d : link) : Z :=
  if incident focus d then 3%Z else 1%Z.

(** The styles written on the [.node] and [.link] selections. *)
Record styles := Styles {
  node_styles : list (node * Q);
  link_styles : list (link * (Q * Z))
}.

Definition highlightConnected (ns : list node) (links : list link)
    (focus : node) : styles :=
  {| node_styles := map (λ d, (d, node_opacity links focus d)) ns;
     link_styles :=
       map (λ d, (d, (link_opacity focus d, link_stroke_width focus d))) links |}.

Definition baseline_width (d : link) : Z :=
  if String.eqb (link_type d) "CALLS" then 2%Z else 1%Z.

Definition removeHighlight (ns : list node) (links : list link) : styles :=
  {| node_styles := map (λ d, (d, 1%Q)) ns;
     link_styles := map (λ d, (d, ((6 # 10)%Q, baseline_width d))) links |}.

(** The spec's words: [d] is directly linked to the focus node by some
    link of the list, as its source or as its target. *)
Definition neighbour (links : list link) (focus d : node) : Prop :=
  ∃ l, l ∈ links ∧
    ((endpoint_id (link_source l) = node_id focus ∧
      endpoint_id (link_target l) = node_id d) ∨
     (endpoint_id (link_target l) = node_id focus ∧
      endpoint_id (link_source l) = node_id d)).

(** What one link contributes to [connectedNodeIds] as seen from the
    string [s]. *)
Definition adds (focus : node) (s : string) (l : link) : Prop :=
  (key_is (endpoint_key (link_source l)) (node_id focus) = true ∧
   key_is (endpoint_key (link_target l)) s = true) ∨
  (key_is (endpoint_key (link_target l)) (node_id focus) = true ∧
   key_is (endpoint_key (link_source l)) s = true).

(** The nodes the claim gives full emphasis. *)
Definition emphasised (links : list link) (focus d : node) : Prop :=
  node_id d = node_id focus ∨ neighbour links focus d.

Definition touches (focus : node) (l : link) : Prop :=
  endpoint_id (link_source l) = node_id focus ∨
  endpoint_id (link_target l) = node_id focus.

End Highlighter.

(** ** Request/response operations of [useGraph] *)

Module Requests.
Import JS Graph.

Inductive nullish := JsNull | JsUndefined.

(** A caught value: [null] or [undefined], of which no property can be
    read, or any other value, of which the code reads [message] only.
    [message] is [undefined] ([None]) for a value that has none; where
    present it is a string, as on every [Error] object. *)
Inductive js_error :=
| JsNullish (v : nullish)
| JsError (message : option string).

(** What the backend answers: an object whose fields may be missing. *)
Record response := Response {
  error : option string;
  r_nodes : option (list node);
  r_links : option (list link);
  r_paths : option (list (list string));
  r_success : bool
}.

(** The awaited promise of an [electronAPI] call: it resolves to an
    object, to [null] or [undefined], or it rejects.  (An answer that is a
    number, a string or a boolean has none of the fields read here and
    stands as the object without fields.) *)
Inductive outcome :=
| Resolves (r : response)
| ResolvesNullish (v : nullish)
| Rejects (e : js_error).

(** The value of an awaited promise that resolved. *)
Inductive value :=
| VNullish (v : nullish)
| VObject (r : response).

(** The values handed to [dispatch] by the action creators of
    [store/actions/graphActions]. *)
Inductive payload :=
| Graph (g : snapshot)
| Whole (r : response).

Inductive action :=
| setGraphData (data : payload)
| setGraphLoading (b : bool)
| setGraphError (e : option string).

(** What a call leaves behind: the actions dispatched and the console. *)
Record world := World {
  dispatched : list action;
  console : list string
}.

Inductive result (A : Type) :=
| Return (a : A)
| Throw (e : js_error).
Arguments Return {A} a.
Arguments Throw {A} e.

Definition M (A : Type) : Type := world → result A * world.

Definition ret {A} (a : A) : M A := λ w, (Return a, w).

Definition bind {A B} (m : M A) (k : A → M B) : M B :=
  λ w, match m w with
       | (Return a, w') => k a w'
       | (Throw e, w') => (Throw e, w')
       end.

Definition throw {A} (e : js_error) : M A := λ w, (Throw e, w).

Definition dispatch (a : action) : M unit :=
  λ w, (Return tt, {| dispatched := dispatched w ++ [a]; console := console w |}).

Definition console_error (s : string) : M unit :=
  λ w, (Return tt, {| dispatched := dispatched w; console := console w ++ [s] |}).

(** [try { body } catch (err) { handler }] *)
Definition try_catch {A} (body : M A) (handler : js_error → M A) : M A :=
  λ w, match body w with
       | (Return a, w') => (Return a, w')
       | (Throw e, w') => handler e w'
       end.

(** [try { body } catch (err) { handler } finally { fin }]; [fin] returns
    nothing, so the completion of the first two blocks stands, also when
    [handler] throws. *)
Definition try_catch_finally {A} (body : M A) (handler : js_error → M A)
    (fin : M unit) : M A :=
  λ w, match try_catch body handler w with
       | (r, w') =>
           match fin w' with
           | (Return _, w'') => (r, w'')
           | (Throw e, w'') => (Throw e, w'')
           end
       end.

(** [await p] *)
Definition await (p : outcome) : M value :=
  match p with
  | Resolves r => ret (VObject r)
  | ResolvesNullish v => ret (VNullish v)
  | Rejects e => throw e
  end.

#[export] Instance M_ret : MRet M := @ret.
#[export] Instance M_bind : MBind M := λ A B k m, bind m k.

(** [err.message || fallback], once [err.message] has been read *)
Definition message_or (m : option string) (fallback : string) : string :=
  match m with
  | Some m => if truthy m then m else fallback
  | None => fallback
  end.

Section Engine.

(** The message of the [TypeError] the engine raises when a property is
    read of [null] or [undefined]; its wording is the engine's. *)
Variable type_error_message : nullish → string → string.

Definition cannot_read (v : nullish) (property : string) : js_error :=
  JsError (Some (type_error_message v property)).

(** [x.property] *)
Definition read {A} (x : value) (property : string) (field : response → A) : M A :=
  match x with
  | VNullish v => throw (cannot_read v property)
  | VObject r => ret (field r)
  end.

(** [err.message] *)
Definition read_message (err : js_error) : M (option string) :=
  match err with
  | JsNullish v => throw (cannot_read v "message")
  | JsError m => ret m
  end.

(** [if (response.error) throw new Error(response.error)]; what gets past
    it is an object. *)
Definition check_error (answer : value) : M response :=
  match answer with
  | VNullish v => throw (cannot_read v "error")
  | VObject r =>
      match error r with
      | Some e => if truthy e then throw (JsError (Some e)) else ret r
      | None => ret r
      end
  end.

Definition fetchGraphData (getGraph : outcome) : M unit :=
  dispatch (setGraphLoading true) ;;
  dispatch (setGraphError None) ;;
  try_catch_finally
    (response ← await getGraph;
     r ← check_error response;
     let transformedData :=
       {| nodes := default [] (r_nodes r); links := default [] (r_links r) |} in
     dispatch (setGraphData (Graph transformedData)))
    (λ err,
       console_error "Error fetching graph data:" ;;
       m ← read_message err;
       dispatch (setGraphError (Some (message_or m "Failed to fetch graph data"))))
    (dispatch (setGraphLoading false)).

Definition pruneTree (api : outcome) : M (option response) :=
  dispatch (setGraphLoading true) ;;
  try_catch_finally
    (response ← await api;
     r ← check_error response;
     dispatch (setGraphData (Whole r)) ;;
     ret (Some r))
    (λ err,
       console_error "Error pruning tree:" ;;
       m ← read_message err;
       dispatch (setGraphError m) ;;
       ret None)
    (dispatch (setGraphLoading false)).

Definition getSubgraph (api : outcome) : M (option response) :=
  try_catch
    (response ← await api; r ← check_error response; ret (Some r))
    (λ err, console_error "Error getting subgraph:" ;; ret None).

Definition findPaths (api : outcome) : M (list (list string)) :=
  try_catch
    (response ← await api; r ← check_error response; ret (default [] (r_paths r)))
    (λ err, console_error "Error finding paths:" ;; ret []).

Definition searchNodes (api : outcome) : M (list node) :=
  try_catch
    (response ← await api; r ← check_error response; ret (default [] (r_nodes r)))
    (λ err, console_error "Error searching nodes:" ;; ret []).

Definition getNodeDetails (api : outcome) : M (option response) :=
  try_catch
    (response ← await api; r ← check_error response; ret (Some r))
    (λ err, console_error "Error getting node details:" ;; ret None).

Definition exportGraph (api : outcome) : M (option response) :=
  try_catch
    (response ← await api; r ← check_error response; ret (Some r))
    (λ err, console_error "Error exporting graph:" ;; ret None).

End Engine.

(** The seven operations, for statements that range over them. *)
Inductive operation :=
| OpFetchGraph | OpPruneTree | OpGetSubgraph | OpFindPaths
| OpSearchNodes | OpGetNodeDetails | OpExportGraph.

(** What a call hands back to its caller: the value it resolves to, or
    the error it rejects with. *)
Inductive returned :=
| Undefined
| Null
| Object (r : response)
| Paths (p : list (list string))
| Nodes (l : list node)
| Raised (e : js_error).

Definition settle {A} (f : A → returned) (x : result A * world) : returned * world :=
  match x with
  | (Return a, w) => (f a, w)
  | (Throw e, w) => (Raised e, w)
  end.

Definition nullable (o : option response) : returned :=
  match o with
  | Some r => Object r
  | None => Null
  end.

Section Calls.

Variable type_error_message : nullish → string → string.

(** One call of an operation on the answer [api] of the backend. *)
Definition call (op : operation) (api : outcome) (w : world) : returned * world :=
  match op with
  | OpFetchGraph => settle (λ _, Undefined) (fetchGraphData type_error_message api w)
  | OpPruneTree => settle nullable (pruneTree type_error_message api w)
  | OpGetSubgraph => settle nullable (getSubgraph type_error_message api w)
  | OpFindPaths => settle Paths (findPaths type_error_message api w)
  | OpSearchNodes => settle Nodes (searchNodes type_error_message api w)
  | OpGetNodeDetails => settle nullable (getNodeDetails type_error_message api w)
  | OpExportGraph => settle nullable (exportGraph type_error_message api w)
  end.

(** The world an operation leaves, whatever it returns. *)
Definition run_op (op : operation) (api : outcome) (w : world) : world :=
  snd (call op api w).

(** The actions an operation added to the log. *)
Definition emitted (op : operation) (api : outcome) (w : world) : list action :=
  drop (length (dispatched w)) (dispatched (run_op op api w)).

End Calls.

Definition is_setGraphData (a : action) : bool :=
  match a with
  | setGraphData _ => true
  | _ => false
  end.

Definition is_error_set (a : action) : bool :=
  match a with
  | setGraphError (Some _) => true
  | _ => false
  end.

Definition empty_world : world := {| dispatched := []; console := [] |}.

(** A response that carries an [error] the code takes as one. *)
Definition carries_error (r : response) : Prop :=
  ∃ e, error r = Some e ∧ truthy e = true.

(** The wording of V8, the engine of Electron, for the examples. *)
Definition v8_message (v : nullish) (property : string) : string :=
  "Cannot read properties of " +:+
  (match v with JsNull => "null" | JsUndefined => "undefined" end) +:+
  " (reading '" +:+ property +:+ "')".

End Requests.

(** ** ConnectionManager: the WebSocket effect of [useGraph] *)

Module Connection.
Import JS Graph.

(** [WebSocket.readyState] *)
Inductive readyState := CONNECTING | OPEN | CLOSING | CLOSED.

(** The parsed [message.data]: a node, a [{nodeId}] object, a link, or
    some other object. *)
Inductive jsdata :=
| DNode (n : node)
| DNodeId (nodeId : string)
| DLink (l : link)
| DOther.

(** The envelope [JSON.parse(event.data)] yields. *)
Record envelope := Envelope {
  msg_type : string;
  msg_data : option jsdata
}.

(** The plain-object actions dispatched by [ws.onmessage]. *)
Inductive action :=
| ADD_GRAPH_NODE (payload : option jsdata)
| REMOVE_GRAPH_NODE (payload : option string)
| ADD_GRAPH_LINK (payload : option jsdata)
| REMOVE_GRAPH_LINK (payload : option jsdata).

(** What the handlers do to the outside; [Send type topic] is the
    [ws.send] of the stringified object with these two fields. *)
Inductive effect :=
| Dispatch (a : action)
| FetchGraphData
| Send (type topic : string)
| ConsoleLog (s : string)
| ConsoleError (s : string)
| CloseCall.

(** The state the effect closes over, with the page's clock.  [ws] is the
    variable of the effect: [None] is [null], otherwise the ready state of
    the socket it holds.  [timers] are the due times of the pending
    [setTimeout(connectWebSocket, 5000)] calls, oldest first; [attempts]
    are the times at which [new WebSocket] was evaluated. *)
Record hook := Hook {
  isConnected : bool;
  ws : option readyState;
  timers : list N;
  now : N;
  attempts : list N;
  effects : list effect
}.

Definition init : hook :=
  {| isConnected := false; ws := None; timers := []; now := 0%N;
     attempts := []; effects := [] |}.

Definition setIsConnected (b : bool) (h : hook) : hook :=
  {| isConnected := b; ws := ws h; timers := timers h; now := now h;
     attempts := attempts h; effects := effects h |}.

Definition emit (e : effect) (h : hook) : hook :=
  {| isConnected := isConnected h; ws := ws h; timers := timers h;
     now := now h; attempts := attempts h; effects := effects h ++ [e] |}.

Definition set_ws (r : option readyState) (h : hook) : hook :=
  {| isConnected := isConnected h; ws := r; timers := timers h;
     now := now h; attempts := attempts h; effects := effects h |}.

(** [setTimeout(connectWebSocket, delay)] *)
Definition setTimeout (delay : N) (h : hook) : hook :=
  {| isConnected := isConnected h; ws := ws h;
     timers := timers h ++ [(now h + delay)%N];
     now := now h; attempts := attempts h; effects := effects h |}.

Definition reconnect_delay : N := 5000%N.

(** [connectWebSocket]; [ctor_ok] tells whether [new WebSocket(url)]
    returns or throws. *)
Definition connectWebSocket (ctor_ok : bool) (h : hook) : hook :=
  let h := {| isConnected := isConnected h; ws := ws h; timers := timers h;
              now := now h; attempts := attempts h ++ [now h];
              effects := effects h |} in
  if ctor_ok then set_ws (Some CONNECTING) h
  else setIsConnected false (emit (ConsoleError "Failed to connect WebSocket:") h).

Definition onopen (h : hook) : hook :=
  emit (Send "subscribe" "graph")
    (setIsConnected true (emit (ConsoleLog "WebSocket connected") h)).

(** The [switch] of [ws.onmessage]; [None] stands for a throw, which the
    handler catches and logs. *)
Definition on_envelope (m : envelope) : option (list effect) :=
  if String.eqb (msg_type m) "graph_updated" then Some [FetchGraphData]
  else if String.eqb (msg_type m) "node_added" then
    Some [Dispatch (ADD_GRAPH_NODE (msg_data m))]
  else if String.eqb (msg_type m) "node_removed" then
    match msg_data m with
    | None => None
    | Some (DNodeId i) => Some [Dispatch (REMOVE_GRAPH_NODE (Some i))]
    | Some _ => Some [Dispatch (REMOVE_GRAPH_NODE None)]
    end
  else if String.eqb (msg_type m) "link_added" then
    Some [Dispatch (ADD_GRAPH_LINK (msg_data m))]
  else if String.eqb (msg_type m) "link_removed" then
    Some [Dispatch (REMOVE_GRAPH_LINK (msg_data m))]
  else Some [].

(** [parsed] is [None] when [JSON.parse] throws. *)
Definition onmessage (parsed : option envelope) (h : hook) : hook :=
  match parsed with
  | None => emit (ConsoleError "Error handling WebSocket message:") h
  | Some m =>
      match on_envelope m with
      | None => emit (ConsoleError "Error handling WebSocket message:") h
      | Some es => foldl (λ h e, emit e h) h es
      end
  end.

Definition onerror (h : hook) : hook :=
  setIsConnected false (emit (ConsoleError "WebSocket error:") h).

Definition onclose (h : hook) : hook :=
  setTimeout reconnect_delay
    (setIsConnected false (emit (ConsoleLog "WebSocket disconnected") h)).

Definition is_open (r : option readyState) : bool :=
  match r with
  | Some OPEN => true
  | _ => false
  end.

(** The function returned by the effect. *)
Definition cleanup (h : hook) : hook :=
  match ws h with
  | Some OPEN => emit CloseCall (set_ws (Some CLOSING) h)
  | _ => h
  end.

(** What the page delivers.  Socket events reach the handlers only when a
    socket exists; [Timer] runs the oldest pending timer, not before it is
    due; [Elapse] lets time pass. *)
Inductive event :=
| Mount (ctor_ok : bool)
| Open
| Message (parsed : option envelope)
| Error
| Close
| Timer (ctor_ok : bool)
| Elapse (ms : N)
| Unmount.

Definition set_now (t : N) (h : hook) : hook :=
  {| isConnected := isConnected h; ws := ws h; timers := timers h;
     now := t; attempts := attempts h; effects := effects h |}.

Definition pop_timer (h : hook) : hook :=
  {| isConnected := isConnected h; ws := ws h; timers := tail (timers h);
     now := now h; attempts := attempts h; effects := effects h |}.

Definition step (h : hook) (e : event) : hook :=
  match e with
  | Mount ok => connectWebSocket ok h
  | Open =>
      match ws h with
      | Some _ => onopen (set_ws (Some OPEN) h)
      | None => h
      end
  | Message p =>
      match ws h with
      | Some _ => onmessage p h
      | None => h
      end
  | Error =>
      match ws h with
      | Some _ => onerror h
      | None => h
      end
  | Close =>
      match ws h with
      | Some _ => onclose (set_ws (Some CLOSED) h)
      | None => h
      end
  | Timer ok =>
      match timers h with
      | [] => h
      | due :: _ => connectWebSocket ok (pop_timer (set_now (N.max (now h) due) h))
      end
  | Elapse ms => set_now (now h + ms)%N h
  | Unmount => cleanup h
  end.

Definition run (h : hook) (es : list event) : hook := foldl step h es.

(** One failed connection: after [latency] the socket reports the failure
    (an [error] event first when [with_error]), closes, and the timer it
    scheduled fires. *)
Definition failure (with_error : bool) (latency : N) : list event :=
  Elapse latency :: (if with_error then [Error] else []) ++ [Close; Timer true].

Definition failures (rounds : list (bool * N)) : list event :=
  concat (map (λ r, failure (fst r) (snd r)) rounds).

(** The times of the reconnect attempts a run of failures must show:
    each one [reconnect_delay] after the close before it. *)
Fixpoint attempt_times (t : N) (rounds : list (bool * N)) : list N :=
  match rounds with
  | [] => []
  | r :: rounds' =>
      let t' := (t + snd r + reconnect_delay)%N in
      t' :: attempt_times t' rounds'
  end.

End Connection.

(** ** GraphStateStore: incremental deltas *)

Module Store.
Import JS Graph.

(** Modelled from the spec: the reducer cases for the four delta actions.
    The reducer that receives [ADD_GRAPH_NODE], [REMOVE_GRAPH_NODE],
    [ADD_GRAPH_LINK] and [REMOVE_GRAPH_LINK] is not among the sources;
    section 4.1 gives its contract as [applyDelta(kind, payload)]. *)
Inductive delta :=
| node_added (n : node)
| node_removed (nodeId : string)
| link_added (l : link)
| link_removed (l : link).

Definition has_node (g : snapshot) (i : string) : bool :=
  bool_decide (i ∈ map node_id (nodes g)).

Definition references (i : string) (l : link) : bool :=
  String.eqb (endpoint_id (link_source l)) i ||
  String.eqb (endpoint_id (link_target l)) i.

Definition same_link (a b : link) : bool :=
  String.eqb (endpoint_id (link_source a)) (endpoint_id (link_source b)) &&
  String.eqb (endpoint_id (link_target a)) (endpoint_id (link_target b)) &&
  String.eqb (link_type a) (link_type b).

(** Modelled from the spec: [applyDelta] of section 4.1.  [node_added]
    inserts the node unless its id is present; [node_removed] removes the
    node and every link referencing it; [link_added] inserts the link
    unless an endpoint id is absent; [link_removed] removes the link
    matching by (source id, target id, type). *)
Definition applyDelta (g : snapshot) (d : delta) : snapshot :=
  match d with
  | node_added n =>
      if has_node g (node_id n) then g
      else {| nodes := nodes g ++ [n]; links := links g |}
  | node_removed i =>
      {| nodes := List.filter (λ n, negb (String.eqb (node_id n) i)) (nodes g);
         links := List.filter (λ l, negb (references i l)) (links g) |}
  | link_added l =>
      if has_node g (endpoint_id (link_source l)) &&
         has_node g (endpoint_id (link_target l))
      then {| nodes := nodes g; links := links g ++ [l] |}
      else g
  | link_removed l =>
      {| nodes := nodes g;
         links := List.filter (λ l', negb (same_link l' l)) (links g) |}
  end.

(** Modelled from the spec: a delta with a missing required field is
    ignored.  This reads the payloads [ws.onmessage] dispatches. *)
Definition delta_of_action (a : Connection.action) : option delta :=
  match a with
  | Connection.ADD_GRAPH_NODE (Some (Connection.DNode n)) => Some (node_added n)
  | Connection.REMOVE_GRAPH_NODE (Some i) => Some (node_removed i)
  | Connection.ADD_GRAPH_LINK (Some (Connection.DLink l)) => Some (link_added l)
  | Connection.REMOVE_GRAPH_LINK (Some (Connection.DLink l)) => Some (link_removed l)
  | _ => None
  end.

Definition reduce (g : snapshot) (a : Connection.action) : snapshot :=
  match delta_of_action a with
  | Some d => applyDelta g d
  | None => g
  end.

(** The snapshot after the store has seen the actions a push message
    makes [ws.onmessage] dispatch. *)
Definition dispatched_by (m : Connection.envelope) : list Connection.action :=
  match Connection.on_envelope m with
  | Some es =>
      omap (λ e, match e with Connection.Dispatch a => Some a | _ => None end) es
  | None => []
  end.

Definition receive (g : snapshot) (m : Connection.envelope) : snapshot :=
  foldl reduce g (dispatched_by m).

(** The link invariant of a snapshot. *)
Definition link_invariant (g : snapshot) : Prop :=
  ∀ l, l ∈ links g →
    endpoint_id (link_source l) ∈ map node_id (nodes g) ∧
    endpoint_id (link_target l) ∈ map node_id (nodes g).

End Store.

(** ** Concrete snapshots and runs used below *)

Module Examples.
Import JS Graph FilterEngine.

(** A node whose id is the empty string, and a second node. *)
Definition anon : node :=
  {| node_id := ""; node_type := "File"; node_properties := None |}.

Definition nodeB : node :=
  {| node_id := "b"; node_type := "File"; node_properties := None |}.

(** A link whose source has been resolved to the node object. *)
Definition resolved_link : link :=
  {| link_source := Ref anon; link_target := Id "b"; link_type := "CONTAINS" |}.

Definition anon_graph : snapshot :=
  {| nodes := [anon; nodeB]; links := [resolved_link] |}.

(** The same link and graph before the layout resolved the source: the
    endpoint is the bare id. *)
Definition bare_link : link :=
  {| link_source := Id ""; link_target := Id "b"; link_type := "CONTAINS" |}.

Definition bare_graph : snapshot :=
  {| nodes := [anon; nodeB]; links := [bare_link] |}.

(** The scenario of the spec: A(File), B(Class), A-CONTAINS-B. *)
Definition fileA : node :=
  {| node_id := "A"; node_type := "File";
     node_properties := Some {[ "name" := "Alpha.js" ]} |}.

Definition classB : node :=
  {| node_id := "B"; node_type := "Class";
     node_properties := Some {[ "name" := "Beta" ]} |}.

Definition a_contains_b : link :=
  {| link_source := Id "A"; link_target := Ref classB; link_type := "CONTAINS" |}.

Definition a_calls_b : link :=
  {| link_source := Ref fileA; link_target := Id "B"; link_type := "CALLS" |}.

Definition scenario : snapshot :=
  {| nodes := [fileA; classB]; links := [a_contains_b; a_calls_b] |}.

Definition only_types (types : list string) : filters :=
  {| nodeTypes := types; showErrors := true; showCalls := true; searchTerm := "" |}.

Definition no_calls : filters :=
  {| nodeTypes := nodeTypes default_filters;
     showErrors := true; showCalls := false; searchTerm := "" |}.

Definition search (term : string) : filters :=
  {| nodeTypes := nodeTypes default_filters;
     showErrors := true; showCalls := true; searchTerm := term |}.

(** A backend answer that carries an error. *)
Definition failed : Requests.response :=
  {| Requests.error := Some "backend down";
     Requests.r_nodes := None; Requests.r_links := None;
     Requests.r_paths := None; Requests.r_success := false |}.

(** A link from nodeB to anon with both endpoints resolved, and the same
    link with bare ids. *)
Definition b_to_anon : link :=
  {| link_source := Ref nodeB; link_target := Ref anon; link_type := "CALLS" |}.

Definition b_to_anon_bare : link :=
  {| link_source := Id "b"; link_target := Id ""; link_type := "CALLS" |}.

End Examples.

(** ** More of [useGraph]: [clearGraph], [getGraphStats] and event counts *)

Module Hook.
Import JS Graph Requests.

Definition empty_graph : snapshot := {| nodes := []; links := [] |}.

(** [clearGraph]: [response.success] decides. *)
Definition clearGraph (type_error_message : nullish → string → string)
    (api : outcome) : M bool :=
  try_catch
    (response ← await api;
     success ← read type_error_message response "success" r_success;
     if success : bool
     then dispatch (setGraphData (Graph empty_graph)) ;; ret true
     else ret false)
    (λ err, console_error "Error clearing graph:" ;; ret false).

(** [getGraphStats]: the answer is handed on as it is. *)
Definition getGraphStats (api : outcome) : M value :=
  try_catch
    (stats ← await api; ret stats)
    (λ err, console_error "Error fetching graph stats:" ;; ret (VNullish JsNull)).

(** The [electronAPI] method each operation calls. *)
Definition method_of (op : operation) : string :=
  match op with
  | OpFetchGraph => "getGraph"
  | OpPruneTree => "pruneTree"
  | OpGetSubgraph => "getSubgraph"
  | OpFindPaths => "findPaths"
  | OpSearchNodes => "searchNodes"
  | OpGetNodeDetails => "getNodeDetails"
  | OpExportGraph => "exportGraph"
  end.

(** The operations that only hand a value back to their caller. *)
Definition is_query (op : operation) : bool :=
  match op with
  | OpFetchGraph | OpPruneTree => false
  | _ => true
  end.

(** The data [fetchGraphData] stores for an answer. *)
Definition transformed (r : response) : snapshot :=
  {| nodes := default [] (r_nodes r); links := default [] (r_links r) |}.

(** [response.error] is truthy. *)
Definition error_truthy (r : response) : bool :=
  match error r with
  | Some e => truthy e
  | None => false
  end.

End Hook.

Module Trace.
Import Connection.

Definition is_mount (e : event) : bool :=
  match e with Mount _ => true | _ => false end.

Definition is_close (e : event) : bool :=
  match e with Close => true | _ => false end.

Definition count (p : event → bool) (es : list event) : nat :=
  length (List.filter p es).

(** The message types [ws.onmessage] has a case for. *)
Definition recognized : list string :=
  ["graph_updated"; "node_added"; "node_removed"; "link_added"; "link_removed"].

End Trace.

(** ** Comparing filter criteria and snapshots *)

Module FilterOrder.
Import JS Graph FilterEngine.

(** [f2] allows at least what [f1] allows, with the same search term. *)
Definition widens (f1 f2 : filters) : Prop :=
  (∀ t, t ∈ nodeTypes f1 → t ∈ nodeTypes f2) ∧
  (showErrors f1 = true → showErrors f2 = true) ∧
  (showCalls f1 = true → showCalls f2 = true) ∧
  searchTerm f1 = searchTerm f2.

(** A snapshot the initial criteria have nothing to hide in: every node
    has one of the five built-in types, and every link joins two of its
    nodes, by bare id or by an embedded node with a non-empty id. *)
Definition presentable (g : snapshot) : Prop :=
  (∀ n, n ∈ nodes g → node_type n ∈ nodeTypes default_filters) ∧
  (∀ l, l ∈ links g →
     link_resolvable l = true ∧
     endpoint_id (link_source l) ∈ ids g ∧
     endpoint_id (link_target l) ∈ ids g).

End FilterOrder.

(** ** Dragging a node: [dragstarted], [dragged], [dragended] *)

Module Drag.

(** The layout fields of a node datum: position and pin. *)
Record datum := Datum {
  x : Q;
  y : Q;
  fx : option Q;
  fy : option Q
}.

(** What the handlers reach of the simulation: its [alphaTarget] and how
    often it was restarted. *)
Record simulation := Simulation {
  alphaTarget : Q;
  restarts : nat
}.

(** [!event.active] *)
Definition inactive (active : N) : bool := (active =? 0)%N.

Definition dragstarted (active : N) (s : simulation * datum) : simulation * datum :=
  let (sim, d) := s in
  (if inactive active
   then {| alphaTarget := (3 # 10)%Q; restarts := S (restarts sim) |}
   else sim,
   {| x := x d; y := y d; fx := Some (x d); fy := Some (y d) |}).

Definition dragged (ex ey : Q) (s : simulation * datum) : simulation * datum :=
  let (sim, d) := s in
  (sim, {| x := x d; y := y d; fx := Some ex; fy := Some ey |}).

Definition dragended (active : N) (s : simulation * datum) : simulation * datum :=
  let (sim, d) := s in
  (if inactive active
   then {| alphaTarget := 0%Q; restarts := restarts sim |}
   else sim,
   {| x := x d; y := y d; fx := None; fy := None |}).

(** The pointer moves of one gesture, applied in order. *)
Definition moves (ps : list (Q * Q)) (s : simulation * datum) : simulation * datum :=
  foldl (λ s p, dragged (fst p) (snd p) s) s ps.

(** One whole gesture. *)
Definition gesture (a0 a1 : N) (ps : list (Q * Q)) (s : simulation * datum)
    : simulation * datum :=
  dragended a1 (moves ps (dragstarted a0 s)).

End Drag.

(** ** Main process: the IPC handlers and the backend call *)

Module Ipc.
Import JS Graph Requests.

(** What [fetch(url, options)] comes to: a rejection, or a response with
    its [ok] flag, the text of [status] and [statusText] joined by a space,
    and the promise of [response.json()]. *)
Inductive fetch_outcome :=
| FetchRejects (e : js_error)
| FetchResponds (ok : bool) (status_line : string) (json : outcome).

(** [callBackendAPI(endpoint, method, data)] *)
Definition callBackendAPI (endpoint : string) (f : fetch_outcome) : M value :=
  try_catch
    (match f with
     | FetchRejects e => throw e
     | FetchResponds ok status_line json =>
         if negb ok
         then throw (JsError (Some ("API error: " +:+ status_line)))
         else await json
     end)
    (λ error,
       console_error ("Backend API call failed: " +:+ endpoint) ;;
       throw error).

(** [{ error: m }] *)
Definition error_object (m : option string) : response :=
  {| error := m; r_nodes := None; r_links := None;
     r_paths := None; r_success := false |}.

Section Platform.

(** The message of the engine's [TypeError], as in [Requests]. *)
Variable type_error_message : nullish → string → string.

(** The message of the [Error] with which [ipcRenderer.invoke] rejects
    when the handler of the channel threw [e]. *)
Variable remote_message : js_error → string.

(** The handlers of the form
    [try { return await callBackendAPI(...) } catch (error) { return { error: error.message } }]. *)
Definition backend_handler (endpoint : string) (f : fetch_outcome) : M value :=
  try_catch (callBackendAPI endpoint f)
    (λ error,
       m ← read_message type_error_message error;
       ret (VObject (error_object m))).

(** What [ipcRenderer.invoke] hands to the renderer for such a handler. *)
Definition invoke (endpoint : string) (f : fetch_outcome) (w : world) : outcome :=
  match fst (backend_handler endpoint f w) with
  | Return (VObject r) => Resolves r
  | Return (VNullish v) => ResolvesNullish v
  | Throw e => Rejects (JsError (Some (remote_message e)))
  end.

End Platform.

(** The message of a response that is not ok is truthy. *)
Definition error_truthy_line (status_line : string) : bool :=
  truthy ("API error: " +:+ status_line).

End Ipc.

(** ** The preload bridge and the channels behind it *)

Module Bridge.
Import JS Graph Requests.

(** The [electronAPI] methods that invoke a channel, with that channel;
    the last three only in development. *)
Definition invokers (development : bool) : list (string * string) :=
  [("scanProject", "scan-project");
   ("openProjectDialog", "open-project-dialog");
   ("getProjectInfo", "get-project-info");
   ("getGraph", "get-graph");
   ("getGraphStats", "get-graph-stats");
   ("clearGraph", "clear-graph");
   ("getFileTree", "get-file-tree");
   ("getFileContent", "get-file-content");
   ("saveFile", "save-file");
   ("getRefactoringCandidates", "get-refactoring-candidates");
   ("applyRefactoring", "apply-refactoring");
   ("previewRefactoring", "preview-refactoring");
   ("getLintErrors", "get-lint-errors");
   ("runLinting", "run-linting");
   ("analyzeCode", "analyze-code");
   ("getCallGraph", "get-call-graph");
   ("findUsages", "find-usages");
   ("getBackendStatus", "get-backend-status");
   ("restartBackend", "restart-backend");
   ("getAppVersion", "get-app-version");
   ("openExternal", "open-external");
   ("showMessageBox", "show-message-box");
   ("minimizeWindow", "minimize-window");
   ("maximizeWindow", "maximize-window");
   ("closeWindow", "close-window");
   ("isWindowMaximized", "is-window-maximized");
   ("getSettings", "get-settings");
   ("updateSettings", "update-settings");
   ("resetSettings", "reset-settings");
   ("selectDirectory", "select-directory");
   ("selectFile", "select-file");
   ("saveFileDialog", "save-file-dialog")] ++
  (if development
   then [("openDevTools", "open-dev-tools");
         ("reloadApp", "reload-app");
         ("clearCache", "clear-cache")]
   else []).

(** The [electronAPI] methods that subscribe to a channel. *)
Definition listeners : list string :=
  ["onBackendLog"; "onBackendStatus"; "onBackendError";
   "onWindowStateChanged"; "onProgressUpdate"].

(** The channels [setupIPCHandlers] registers with [ipcMain.handle]. *)
Definition handled (development : bool) : list string :=
  ["scan-project"; "open-project-dialog"; "get-project-info";
   "get-graph"; "get-graph-stats"; "clear-graph";
   "get-file-tree"; "get-file-content"; "save-file";
   "get-refactoring-candidates"; "apply-refactoring"; "preview-refactoring";
   "get-lint-errors"; "run-linting";
   "analyze-code"; "get-call-graph"; "find-usages";
   "get-backend-status"; "restart-backend";
   "get-app-version"; "open-external"; "show-message-box";
   "minimize-window"; "maximize-window"; "close-window"; "is-window-maximized";
   "get-settings"; "update-settings"; "reset-settings";
   "select-directory"; "select-file"; "save-file-dialog"] ++
  (if development then ["open-dev-tools"; "reload-app"; "clear-cache"] else []).

Fixpoint assoc (k : string) (l : list (string * string)) : option string :=
  match l with
  | [] => None
  | (k', v) :: l' => if String.eqb k k' then Some v else assoc k l'
  end.

(** The promise an operation of the hook awaits: the reply of the channel
    its [electronAPI] method invokes, or the [TypeError] thrown by calling
    a method the bridge does not have.  ([None]: the method is a
    subscription and returns no promise.) *)
Definition awaited (development : bool) (type_error : js_error)
    (reply : string → outcome) (op : operation) : option outcome :=
  match assoc (Hook.method_of op) (invokers development) with
  | Some channel => Some (reply channel)
  | None =>
      if bool_decide (Hook.method_of op ∈ listeners) then None
      else Some (Rejects type_error)
  end.

End Bridge.

(** ** Main process: [WindowManager] *)

Module WindowManager.

(** [getBounds()]: integers, in pixels. *)
Record bounds := Bounds {
  bx : Z;
  by_ : Z;
  bwidth : Z;
  bheight : Z
}.

(** [screen.getPrimaryDisplay().workAreaSize] *)
Record area := Area {
  awidth : Z;
  aheight : Z
}.

(** What the main window answers when asked. *)
Record observation := Observation {
  getBounds : bounds;
  isMaximized : bool;
  isMinimized : bool;
  isVisible : bool;
  isFocused : bool
}.

(** The object kept in [global.windowState]. *)
Record window_state := WindowState {
  s_x : Z;
  s_y : Z;
  s_width : Z;
  s_height : Z;
  s_isMaximized : bool;
  s_isMinimized : bool;
  s_timestamp : Z
}.

(** Option values of a [BrowserWindow]. *)
Inductive value :=
| VNum (n : Z)
| VBool (b : bool)
| VStr (s : string)
| VWindow (w : option nat)
| VWebPreferences (nodeIntegration contextIsolation : bool) (preload : string).

(** An options object: its own keys in insertion order. *)
Definition options := list (string * value).

Fixpoint get (k : string) (o : options) : option value :=
  match o with
  | [] => None
  | (k', v) :: o' => if String.eqb k k' then Some v else get k o'
  end.

(** Assigning one key: an existing key keeps its place. *)
Fixpoint put (k : string) (v : value) (o : options) : options :=
  match o with
  | [] => [(k, v)]
  | (k', v') :: o' =>
      if String.eqb k k' then (k, v) :: o' else (k', v') :: put k v o'
  end.

(** [{ ...a, ...b }] *)
Definition spread (a b : options) : options :=
  foldl (λ acc kv, put (fst kv) (snd kv) acc) a b.

(** Method calls made on windows, and windows constructed. *)
Inductive call :=
| construct (w : nat) (o : options)
| setBounds (w : nat) (b : bounds)
| setPosition (w : nat) (x y : Z)
| maximize (w : nat)
| restore (w : nat)
| focus (w : nat)
| close (w : nat)
| show (w : nat)
| hide (w : nat).

Definition target (c : call) : nat :=
  match c with
  | construct w _ | setBounds w _ | setPosition w _ _ | maximize w
  | restore w | focus w | close w | show w | hide w => w
  end.

(** The manager with what it has registered, and the part of Electron it
    acts on.  [windows] is the [Map], in insertion order; [on_closed] are
    the ['closed'] listeners with the name each one deletes; [once_ready]
    the pending ['ready-to-show'] listeners; [destroyed] the windows for
    which [isDestroyed()] is true; [fresh] names the next window created. *)
Record manager := Manager {
  mainWindow : option nat;
  windows : list (string * nat);
  on_closed : list (nat * string);
  once_ready : list nat;
  destroyed : gset nat;
  fresh : nat;
  calls : list call;
  windowState : option window_state
}.

Definition isDestroyed (w : nat) (m : manager) : bool :=
  bool_decide (w ∈ destroyed m).

Definition do_call (c : call) (m : manager) : manager :=
  {| mainWindow := mainWindow m; windows := windows m;
     on_closed := on_closed m; once_ready := once_ready m;
     destroyed := destroyed m; fresh := fresh m;
     calls := calls m ++ [c]; windowState := windowState m |}.

Definition set_windows (ws : list (string * nat)) (m : manager) : manager :=
  {| mainWindow := mainWindow m; windows := ws;
     on_closed := on_closed m; once_ready := once_ready m;
     destroyed := destroyed m; fresh := fresh m;
     calls := calls m; windowState := windowState m |}.

(** [Map.prototype.get], [set] and [delete] on the insertion-ordered list. *)
Fixpoint map_get (k : string) (l : list (string * nat)) : option nat :=
  match l with
  | [] => None
  | (k', v) :: l' => if String.eqb k k' then Some v else map_get k l'
  end.

Fixpoint map_set (k : string) (v : nat) (l : list (string * nat))
    : list (string * nat) :=
  match l with
  | [] => [(k, v)]
  | (k', v') :: l' =>
      if String.eqb k k' then (k, v) :: l' else (k', v') :: map_set k v l'
  end.

Definition map_delete (k : string) (l : list (string * nat)) : list (string * nat) :=
  List.filter (λ kv, negb (String.eqb k (fst kv))) l.

Definition isValidPosition (s : window_state) (workAreaSize : area) : bool :=
  (0 <=? s_x s)%Z && (0 <=? s_y s)%Z &&
  (s_x s + s_width s <=? awidth workAreaSize)%Z &&
  (s_y s + s_height s <=? aheight workAreaSize)%Z.

(** [saveWindowState]; [timestamp] is [Date.now()]. *)
Definition saveWindowState (obs : observation) (timestamp : Z) (m : manager)
    : manager :=
  match mainWindow m with
  | None => m
  | Some _ =>
      {| mainWindow := mainWindow m; windows := windows m;
         on_closed := on_closed m; once_ready := once_ready m;
         destroyed := destroyed m; fresh := fresh m; calls := calls m;
         windowState :=
           Some {| s_x := bx (getBounds obs); s_y := by_ (getBounds obs);
                   s_width := bwidth (getBounds obs);
                   s_height := bheight (getBounds obs);
                   s_isMaximized := isMaximized obs;
                   s_isMinimized := isMinimized obs;
                   s_timestamp := timestamp |} |}
  end.

Definition restoreWindowState (workAreaSize : area) (m : manager) : manager :=
  match mainWindow m, windowState m with
  | Some w, Some state =>
      if isValidPosition state workAreaSize then
        let m1 := do_call (setBounds w {| bx := s_x state; by_ := s_y state;
                                          bwidth := s_width state;
                                          bheight := s_height state |}) m in
        if s_isMaximized state then do_call (maximize w) m1 else m1
      else m
  | _, _ => m
  end.

(** The [defaultOptions] of [createChildWindow]; [preload] is
    [path.join(__dirname, 'preload.js')]. *)
Definition defaultOptions (preload : string) (m : manager) : options :=
  [("width", VNum 800); ("height", VNum 600);
   ("parent", VWindow (mainWindow m));
   ("modal", VBool true); ("show", VBool false);
   ("autoHideMenuBar", VBool true);
   ("webPreferences", VWebPreferences false true preload)].

Definition createChildWindow (preload : string) (name : string) (o : options)
    (m : manager) : nat * manager :=
  let windowOptions := spread (defaultOptions preload m) o in
  let childWindow := fresh m in
  (childWindow,
   {| mainWindow := mainWindow m;
      windows := map_set name childWindow (windows m);
      on_closed := on_closed m ++ [(childWindow, name)];
      once_ready := once_ready m ++ [childWindow];
      destroyed := destroyed m;
      fresh := S (fresh m);
      calls := calls m ++ [construct childWindow windowOptions];
      windowState := windowState m |}).

(** The ['closed'] event of a window: Electron has destroyed it, and the
    listeners registered on it run. *)
Definition closed (w : nat) (m : manager) : manager :=
  {| mainWindow := mainWindow m;
     windows :=
       foldl (λ ws h, if Nat.eqb (fst h) w then map_delete (snd h) ws else ws)
             (windows m) (on_closed m);
     on_closed := on_closed m; once_ready := once_ready m;
     destroyed := destroyed m ∪ {[w]};
     fresh := fresh m; calls := calls m; windowState := windowState m |}.

(** The ['ready-to-show'] event of a window. *)
Definition ready_to_show (w : nat) (m : manager) : manager :=
  if bool_decide (w ∈ once_ready m) then
    do_call (show w)
      {| mainWindow := mainWindow m; windows := windows m;
         on_closed := on_closed m;
         once_ready := List.filter (λ w', negb (Nat.eqb w' w)) (once_ready m);
         destroyed := destroyed m; fresh := fresh m; calls := calls m;
         windowState := windowState m |}
  else m.

Definition getWindow (name : string) (m : manager) : option nat :=
  map_get name (windows m).

Definition closeWindow (name : string) (m : manager) : manager :=
  match map_get name (windows m) with
  | Some w => if negb (isDestroyed w m) then do_call (close w) m else m
  | None => m
  end.

(** The loop shared by the methods that visit every child window. *)
Definition for_each_live (c : nat → call) (m : manager) : manager :=
  foldl (λ m kv, if negb (isDestroyed (snd kv) m) then do_call (c (snd kv)) m else m)
        m (windows m).

Definition closeAllChildWindows (m : manager) : manager :=
  set_windows [] (for_each_live close m).

Definition destroy (m : manager) : manager :=
  let m1 := set_windows [] (closeAllChildWindows m) in
  {| mainWindow := None; windows := windows m1;
     on_closed := on_closed m1; once_ready := once_ready m1;
     destroyed := destroyed m1; fresh := fresh m1; calls := calls m1;
     windowState := windowState m1 |}.

Definition main_alive (m : manager) : option nat :=
  match mainWindow m with
  | Some w => if negb (isDestroyed w m) then Some w else None
  | None => None
  end.

Definition focusMainWindow (obs : observation) (m : manager) : manager :=
  match main_alive m with
  | Some w =>
      let m1 := if isMinimized obs then do_call (restore w) m else m in
      do_call (focus w) m1
  | None => m
  end.

Definition hideAllWindows (m : manager) : manager :=
  let m1 := match main_alive m with
            | Some w => do_call (hide w) m
            | None => m
            end in
  for_each_live hide m1.

Definition showAllWindows (m : manager) : manager :=
  let m1 := match main_alive m with
            | Some w => do_call (show w) m
            | None => m
            end in
  for_each_live show m1.

(** [Math.round(n / 2)] for an integer [n]: halves round up. *)
Definition round_half (n : Z) : Z := ((n + 1) / 2)%Z.

(** [centerWindow(window)]; [window] is the argument after its default,
    [b] what its [getBounds()] answers. *)
Definition centerWindow (window : option nat) (b : bounds) (workAreaSize : area)
    (m : manager) : manager :=
  match window with
  | None => m
  | Some w =>
      let x := round_half (awidth workAreaSize - bwidth b) in
      let y := round_half (aheight workAreaSize - bheight b) in
      do_call (setPosition w x y) m
  end.

(** [getWindowStats()]; [mainWindowExists] is [null] without a main
    window. *)
Record stats := Stats {
  mainWindowExists : option bool;
  childWindowCount : nat;
  childWindows : list string;
  mainWindowState : option (bool * bool * bool * bool)
}.

Definition getWindowStats (obs : observation) (m : manager) : stats :=
  {| mainWindowExists :=
       match mainWindow m with
       | Some w => Some (negb (isDestroyed w m))
       | None => None
       end;
     childWindowCount := length (windows m);
     childWindows := map fst (windows m);
     mainWindowState :=
       match mainWindow m with
       | Some _ => Some (isVisible obs, isMaximized obs, isMinimized obs, isFocused obs)
       | None => None
       end |}.

(** The methods that act on windows already there. *)
Inductive method :=
| CloseWindow (name : string)
| CloseAllChildWindows
| Destroy
| FocusMainWindow (obs : observation)
| HideAllWindows
| ShowAllWindows.

Definition perform (op : method) (m : manager) : manager :=
  match op with
  | CloseWindow name => closeWindow name m
  | CloseAllChildWindows => closeAllChildWindows m
  | Destroy => destroy m
  | FocusMainWindow obs => focusMainWindow obs m
  | HideAllWindows => hideAllWindows m
  | ShowAllWindows => showAllWindows m
  end.

(** The calls a step added. *)
Definition added (before after : manager) : list call :=
  drop (length (calls before)) (calls after).

(** [new WindowManager(mainWindow)] in a process whose
    [global.windowState] is [saved]. *)
Definition new (main : option nat) (saved : option window_state)
    (workAreaSize : area) : manager :=
  restoreWindowState workAreaSize
    {| mainWindow := main; windows := []; on_closed := []; once_ready := [];
       destroyed := ∅;
       fresh := match main with Some w => S w | None => 0 end;
       calls := []; windowState := saved |}.

(** [state.x >= 0 && ...] on the bounds themselves. *)
Definition on_screen (b : bounds) (workAreaSize : area) : bool :=
  (0 <=? bx b)%Z && (0 <=? by_ b)%Z &&
  (bx b + bwidth b <=? awidth workAreaSize)%Z &&
  (by_ b + bheight b <=? aheight workAreaSize)%Z.

Definition live (m : manager) (w : nat) : bool := negb (isDestroyed w m).

End WindowManager.

(** * Properties *)

(** ** Strings *)

Section StringFacts.
Import JS.

Lemma append_nil (s : string) : "" +:+ s = s.
Proof. reflexivity. Qed.

Lemma append_cons (c : ascii) (a b : string) :
  String c a +:+ b = String c (a +:+ b).
Proof. reflexivity. Qed.


Lemma startsWith_spec (s t : string) :
  startsWith s t = true ↔ ∃ post, s = t +:+ post.
Proof.
  revert s. induction t as [|c t IH]; intros s; simpl.
  - split; [intros _; by exists s | done].
  - destruct s as [|d s].
    + split; [done | intros [post H]; rewrite append_cons in H; discriminate H].
    + rewrite andb_true_iff, Ascii.eqb_eq, IH. split.
      * intros [-> [post ->]]. by exists post.
      * intros [post H]. rewrite append_cons in H. injection H as -> ->. eauto.
Qed.

Lemma includes_spec (s t : string) :
  includes s t = true ↔ ∃ pre post, s = pre +:+ t +:+ post.
Proof.
  split.
  - induction s as [|c s IH]; simpl; rewrite orb_true_iff.
    + intros [H|H]; [|done].
      apply startsWith_spec in H as [post ->]. by exists "", post.
    + intros [H|H].
      * apply startsWith_spec in H as [post H]. by exists "", post.
      * destruct (IH H) as (pre & post & ->). by exists (String c pre), post.
  - intros (pre & post & ->). induction pre as [|c pre IH].
    + rewrite append_nil.
      assert (startsWith (t +:+ post) t = true) as H
        by (apply startsWith_spec; by exists post).
      destruct (t +:+ post); simpl; by rewrite H.
    + rewrite append_cons. simpl. rewrite IH. apply orb_true_r.
Qed.

Lemma includes_empty (s : string) : includes s "" = true.
Proof. apply includes_spec. by exists "", s. Qed.




Lemma nat_of_lower_ascii (c : ascii) :
  nat_of_ascii (lower_ascii c) =
  if (65 <=? nat_of_ascii c) && (nat_of_ascii c <=? 90)
  then nat_of_ascii c + 32 else nat_of_ascii c.
Proof.
  unfold lower_ascii. pose proof (nat_ascii_bounded c) as Hb.
  destruct (Nat.leb_spec 65 (nat_of_ascii c)), (Nat.leb_spec (nat_of_ascii c) 90);
    simpl; try done.
  apply nat_ascii_embedding. lia.
Qed.

Lemma nat_of_ascii_inj (c d : ascii) : nat_of_ascii c = nat_of_ascii d → c = d.
Proof.
  intros H. rewrite <- (ascii_nat_embedding c), <- (ascii_nat_embedding d).
  by rewrite H.
Qed.

(** Lower-casing identifies exactly the characters that are the same
    letter. *)
Lemma same_letter_spec (c d : ascii) :
  same_letter c d = true ↔ lower_ascii c = lower_ascii d.
Proof.
  split.
  - intros H. apply nat_of_ascii_inj. rewrite !nat_of_lower_ascii.
    unfold same_letter, is_capital in H.
    destruct (Nat.leb_spec 65 (nat_of_ascii c)), (Nat.leb_spec (nat_of_ascii c) 90),
             (Nat.leb_spec 65 (nat_of_ascii d)), (Nat.leb_spec (nat_of_ascii d) 90),
             (Nat.eqb_spec (nat_of_ascii c) (nat_of_ascii d)),
             (Nat.eqb_spec (nat_of_ascii d) (nat_of_ascii c + 32)),
             (Nat.eqb_spec (nat_of_ascii c) (nat_of_ascii d + 32));
      simpl in *; try discriminate H; lia.
  - intros H. apply (f_equal nat_of_ascii) in H. rewrite !nat_of_lower_ascii in H.
    unfold same_letter, is_capital.
    destruct (Nat.leb_spec 65 (nat_of_ascii c)), (Nat.leb_spec (nat_of_ascii c) 90),
             (Nat.leb_spec 65 (nat_of_ascii d)), (Nat.leb_spec (nat_of_ascii d) 90),
             (Nat.eqb_spec (nat_of_ascii c) (nat_of_ascii d)),
             (Nat.eqb_spec (nat_of_ascii d) (nat_of_ascii c + 32)),
             (Nat.eqb_spec (nat_of_ascii c) (nat_of_ascii d + 32));
      simpl in *; try reflexivity; lia.
Qed.

Lemma same_letters_spec (s t : string) :
  same_letters s t = true ↔ ascii_toLowerCase s = ascii_toLowerCase t.
Proof.
  revert t. induction s as [|c s IH]; intros [|d t]; simpl; try done.
  rewrite andb_true_iff, same_letter_spec, IH. split.
  - by intros [-> ->].
  - by intros [= -> ->].
Qed.


End StringFacts.

(** ** FilterEngine *)

Section FilterFacts.
Import JS Graph FilterEngine.

Variable toLowerCase : string → string.

Local Notation search_ok := (FilterEngine.search_ok toLowerCase).
Local Notation node_pass := (FilterEngine.node_pass toLowerCase).
Local Notation filteredData := (FilterEngine.filteredData toLowerCase).
Local Notation contains_ci := (FilterEngine.contains_ci toLowerCase).
Local Notation matches := (FilterEngine.matches toLowerCase).

Lemma elem_of_List_filter {A} (p : A → bool) (l : list A) (x : A) :
  x ∈ List.filter p l ↔ x ∈ l ∧ p x = true.
Proof. rewrite !list_elem_of_In. apply filter_In. Qed.

(** A [toLowerCase] that agrees with the ASCII one lower-cases the empty
    string to itself. *)
Lemma agrees_on_empty : agrees_on_ascii toLowerCase → toLowerCase "" = "".
Proof. intros H. by rewrite H. Qed.


Lemma truthy_false (s : string) : truthy s = false ↔ s = "".
Proof. by destruct s. Qed.

Lemma truthy_true (s : string) : truthy s = true ↔ s ≠ "".
Proof. by destruct s. Qed.

Lemma search_ok_spec (f : filters) (n : node) :
  search_ok f n = true ↔ matches (searchTerm f) n.
Proof.
  unfold FilterEngine.search_ok, FilterEngine.matches, FilterEngine.contains_ci.
  destruct (truthy (searchTerm f)) eqn:T.
  - apply truthy_true in T.
    destruct (includes (toLowerCase (prop n "name")) _),
             (includes (toLowerCase (prop n "path")) _); simpl; naive_solver.
  - apply truthy_false in T. naive_solver.
Qed.

Lemma node_pass_spec (f : filters) (n : node) :
  node_pass f n = true ↔
  node_type n ∈ nodeTypes f ∧ matches (searchTerm f) n ∧
  (showErrors f = true ∨ node_type n ≠ "LintError").
Proof.
  rewrite <- search_ok_spec. unfold FilterEngine.node_pass, array_includes.
  destruct (bool_decide_reflect (node_type n ∈ nodeTypes f)) as [Hin|Hin]; simpl;
    [|naive_solver].
  destruct (search_ok f n); simpl; [|naive_solver].
  destruct (showErrors f); simpl; [naive_solver|].
  destruct (String.eqb_spec (node_type n) "LintError"); naive_solver.
Qed.

Lemma set_has_ids (ns : list node) (e : endpoint) :
  set_has (list_to_set (map node_id ns)) (endpoint_key e) = true →
  endpoint_id e ∈ map node_id ns.
Proof.
  destruct e as [s|n]; simpl.
  - rewrite bool_decide_eq_true. apply elem_of_list_to_set.
  - destruct (truthy (node_id n)); simpl; [|done].
    rewrite bool_decide_eq_true. apply elem_of_list_to_set.
Qed.

Lemma set_has_resolvable (ns : list node) (e : endpoint) :
  resolvable e = true →
  endpoint_id e ∈ map node_id ns →
  set_has (list_to_set (map node_id ns)) (endpoint_key e) = true.
Proof.
  destruct e as [s|n]; simpl.
  - intros _ H. rewrite bool_decide_eq_true. by apply elem_of_list_to_set.
  - intros -> H. simpl. rewrite bool_decide_eq_true. by apply elem_of_list_to_set.
Qed.

Lemma calls_gate_spec (f : filters) (l : link) :
  (negb (showCalls f) && String.eqb (link_type l) "CALLS") = false ↔ calls_gate f l.
Proof.
  unfold calls_gate. destruct (showCalls f); simpl; [naive_solver|].
  destruct (String.eqb_spec (link_type l) "CALLS"); naive_solver.
Qed.


(** C10: with no snapshot the derivation returns no node and no link,
    whatever the criteria. *)
Theorem filteredData_no_snapshot (f : filters) :
  filteredData None f = {| nodes := []; links := [] |} ∧
  nodes (filteredData None f) = [] ∧ links (filteredData None f) = [].
Proof. by repeat split. Qed.

Lemma link_pass_sound (f : filters) (ns : list node) (l : link) :
  link_pass f (list_to_set (map node_id ns)) l = true →
  endpoint_id (link_source l) ∈ map node_id ns ∧
  endpoint_id (link_target l) ∈ map node_id ns ∧
  calls_gate f l.
Proof.
  unfold link_pass. intros H.
  destruct (set_has _ (endpoint_key (link_source l))) eqn:Hs; [|done].
  destruct (set_has _ (endpoint_key (link_target l))) eqn:Ht; [|done].
  simpl in H.
  destruct (negb (showCalls f) && String.eqb (link_type l) "CALLS") eqn:Hc; [done|].
  split_and!; [by apply set_has_ids | by apply set_has_ids | by apply calls_gate_spec].
Qed.

Lemma link_pass_complete (f : filters) (ns : list node) (l : link) :
  resolvable (link_source l) = true →
  resolvable (link_target l) = true →
  endpoint_id (link_source l) ∈ map node_id ns →
  endpoint_id (link_target l) ∈ map node_id ns →
  calls_gate f l →
  link_pass f (list_to_set (map node_id ns)) l = true.
Proof.
  intros Rs Rt Hs Ht Hc. unfold link_pass.
  rewrite (set_has_resolvable _ _ Rs Hs), (set_has_resolvable _ _ Rt Ht).
  apply calls_gate_spec in Hc. simpl. by rewrite Hc.
Qed.

(** What the link filter does guarantee: every link of the filtered view
    has both endpoint ids among the ids of the view's nodes, and is a CALLS
    link only when showCalls is set; conversely a link of the snapshot
    whose endpoints are bare ids or embedded nodes with a non-empty id,
    whose endpoint ids are both visible and which passes the showCalls
    gate, is in the view. *)
Lemma filteredData_link_visibility (g : snapshot) (f : filters) (l : link) :
  (l ∈ links (filteredData (Some g) f) →
     l ∈ links g ∧
     endpoint_id (link_source l) ∈ ids (filteredData (Some g) f) ∧
     endpoint_id (link_target l) ∈ ids (filteredData (Some g) f) ∧
     (link_type l = "CALLS" → showCalls f = true)) ∧
  (l ∈ links g ∧
   resolvable (link_source l) = true ∧ resolvable (link_target l) = true ∧
   endpoint_id (link_source l) ∈ ids (filteredData (Some g) f) ∧
   endpoint_id (link_target l) ∈ ids (filteredData (Some g) f) ∧
   calls_gate f l →
     l ∈ links (filteredData (Some g) f)).
Proof.
  unfold ids. simpl. split.
  - rewrite elem_of_List_filter. intros [Hl Hp].
    apply link_pass_sound in Hp as (Hs & Ht & Hc).
    split_and!; try done. intros E. destruct Hc as [Hc|Hc]; [done | by destruct Hc].
  - intros (Hl & Rs & Rt & Hs & Ht & Hc).
    apply elem_of_List_filter. split; [done|]. by apply link_pass_complete.
Qed.




End FilterFacts.

(** ** FilterEngine on the scenario of the spec *)

Section FilterScenario.
Import JS Graph FilterEngine.

Local Notation filteredData := (FilterEngine.filteredData ascii_toLowerCase).
Local Notation contains_ci := (FilterEngine.contains_ci ascii_toLowerCase).

Lemma ascii_agrees : agrees_on_ascii ascii_toLowerCase.
Proof. by intros s _. Qed.

(** The scenario of the spec under four criteria. *)
Example scenario_default :
  filteredData (Some Examples.scenario) default_filters = Examples.scenario.
Proof. reflexivity. Qed.

Example scenario_files_only :
  filteredData (Some Examples.scenario) (Examples.only_types ["File"]) =
  {| nodes := [Examples.fileA]; links := [] |}.
Proof. reflexivity. Qed.

Example scenario_no_calls :
  filteredData (Some Examples.scenario) Examples.no_calls =
  {| nodes := [Examples.fileA; Examples.classB]; links := [Examples.a_contains_b] |}.
Proof. reflexivity. Qed.

Example scenario_search_upper :
  filteredData (Some Examples.scenario) (Examples.search "ALPHA") =
  {| nodes := [Examples.fileA]; links := [] |}.
Proof. reflexivity. Qed.

(** C2: the converse half fails on an embedded endpoint whose id is the
    empty string.  The link from the node with id [""] to the node with id
    ["b"] has both endpoint ids in the view and is no CALLS link; with its
    source given as the bare id the view keeps it, with its source resolved
    to the node object the view drops it, since [link.source.id ||
    link.source] is then the object and the set of ids holds strings. *)
Theorem filteredData_drops_visible_link :
  let v := filteredData (Some Examples.anon_graph) default_filters in
  let v' := filteredData (Some Examples.bare_graph) default_filters in
  Examples.resolved_link ∈ links Examples.anon_graph ∧
  endpoint_id (link_source Examples.resolved_link) ∈ ids v ∧
  endpoint_id (link_target Examples.resolved_link) ∈ ids v ∧
  calls_gate default_filters Examples.resolved_link ∧
  (Examples.resolved_link ∉ links v) ∧
  ids v' = ids v ∧
  endpoint_id (link_source Examples.bare_link) =
    endpoint_id (link_source Examples.resolved_link) ∧
  endpoint_id (link_target Examples.bare_link) =
    endpoint_id (link_target Examples.resolved_link) ∧
  link_type Examples.bare_link = link_type Examples.resolved_link ∧
  Examples.bare_link ∈ links v'.
Proof.
  intros v v'.
  assert (v = {| nodes := [Examples.anon; Examples.nodeB]; links := [] |}) as ->
    by reflexivity.
  assert (v' = Examples.bare_graph) as -> by reflexivity.
  split_and!; try reflexivity; try (apply list_elem_of_In; simpl; tauto).
  - by right.
  - apply not_elem_of_nil.
Qed.




End FilterScenario.

(** ** InteractionHighlighter *)

Section HighlightFacts.
Import JS Graph Highlighter.

Lemma elem_of_map {A B} (f : A → B) (l : list A) (y : B) :
  y ∈ map f l ↔ ∃ x, f x = y ∧ x ∈ l.
Proof.
  rewrite list_elem_of_In, in_map_iff.
  by setoid_rewrite list_elem_of_In.
Qed.

Lemma key_is_id (e : endpoint) (s : string) :
  key_is (endpoint_key e) s = true → endpoint_id e = s.
Proof.
  destruct e as [x|n]; simpl.
  - by intros H%String.eqb_eq.
  - destruct (truthy (node_id n)); simpl; [by intros H%String.eqb_eq | done].
Qed.

Lemma key_is_resolvable (e : endpoint) (s : string) :
  resolvable e = true →
  key_is (endpoint_key e) s = true ↔ endpoint_id e = s.
Proof.
  destruct e as [x|n]; simpl.
  - intros _. apply String.eqb_eq.
  - intros ->. simpl. apply String.eqb_eq.
Qed.

Lemma has_snoc (ks : list key) (k : key) (s : string) :
  has (ks ++ [k]) s = has ks s || key_is k s.
Proof. unfold has. rewrite existsb_app. simpl. by rewrite orb_false_r. Qed.

Lemma has_add_connected (focus : node) (s : string) (acc : list key) (l : link) :
  has (add_connected focus acc l) s = true ↔ has acc s = true ∨ adds focus s l.
Proof.
  unfold add_connected, adds.
  destruct (key_is (endpoint_key (link_source l)) (node_id focus)),
           (key_is (endpoint_key (link_target l)) (node_id focus));
    rewrite ?has_snoc, ?orb_true_iff; intuition discriminate.
Qed.

Lemma has_foldl_connected (focus : node) (s : string) (links : list link)
    (acc : list key) :
  has (foldl (add_connected focus) acc links) s = true ↔
  has acc s = true ∨ ∃ l, l ∈ links ∧ adds focus s l.
Proof.
  revert acc. induction links as [|l links IH]; intros acc; simpl.
  - split; [by left | intros [H|(l & Hl & _)]; [done | by apply elem_of_nil in Hl]].
  - rewrite IH, has_add_connected. setoid_rewrite elem_of_cons. naive_solver.
Qed.

Lemma has_connected (links : list link) (focus : node) (s : string) :
  has (connectedNodeIds links focus) s = true ↔ ∃ l, l ∈ links ∧ adds focus s l.
Proof.
  unfold connectedNodeIds. rewrite has_foldl_connected. simpl. naive_solver.
Qed.

Lemma forallb_elem {A} (p : A → bool) (l : list A) (x : A) :
  forallb p l = true → x ∈ l → p x = true.
Proof. rewrite forallb_forall, list_elem_of_In. auto. Qed.

Lemma adds_resolvable (focus : node) (s : string) (l : link) :
  link_resolvable l = true →
  adds focus s l ↔
  (endpoint_id (link_source l) = node_id focus ∧ endpoint_id (link_target l) = s) ∨
  (endpoint_id (link_target l) = node_id focus ∧ endpoint_id (link_source l) = s).
Proof.
  unfold link_resolvable, adds. rewrite andb_true_iff. intros [Rs Rt].
  by rewrite !(key_is_resolvable _ _ Rs), !(key_is_resolvable _ _ Rt).
Qed.

Lemma emphasised_spec (links : list link) (focus d : node) :
  forallb link_resolvable links = true →
  String.eqb (node_id d) (node_id focus) ||
    has (connectedNodeIds links focus) (node_id d) = true ↔
  emphasised links focus d.
Proof.
  intros R. unfold emphasised, neighbour.
  rewrite orb_true_iff, String.eqb_eq, has_connected.
  split; (intros [E|(l & Hl & H)]; [by left | right; exists l; split; [done|]]);
    by apply (adds_resolvable focus (node_id d) l (forallb_elem _ _ _ R Hl)).
Qed.

Lemma incident_spec (focus : node) (l : link) :
  link_resolvable l = true → incident focus l = true ↔ touches focus l.
Proof.
  unfold link_resolvable, incident, touches.
  rewrite andb_true_iff, orb_true_iff. intros [Rs Rt].
  by rewrite (key_is_resolvable _ _ Rs), (key_is_resolvable _ _ Rt).
Qed.

(** What the hover emphasis does guarantee: over visible links whose
    endpoints are bare ids or embedded nodes with a non-empty id, hovering
    a focus node gives opacity 1 to exactly the focus node and the nodes
    linked to it and 0.3 to every other visible node, opacity 1 and width 3
    to the links touching the focus node and opacity 0.1 and width 1 to the
    others; clearing the focus gives every node opacity 1 and every link
    opacity 0.6 and width 2 for CALLS, 1 otherwise. *)
Lemma highlight_emphasis (ns : list node) (links : list link) (focus : node) :
  forallb link_resolvable links = true →
  (∀ d o, (d, o) ∈ node_styles (highlightConnected ns links focus) ↔
     d ∈ ns ∧ ((emphasised links focus d ∧ o = 1%Q) ∨
               (¬ emphasised links focus d ∧ o = (3 # 10)%Q))) ∧
  (∀ l o w, (l, (o, w)) ∈ link_styles (highlightConnected ns links focus) ↔
     l ∈ links ∧ ((touches focus l ∧ o = 1%Q ∧ w = 3%Z) ∨
                  (¬ touches focus l ∧ o = (1 # 10)%Q ∧ w = 1%Z))) ∧
  (∀ d o, (d, o) ∈ node_styles (removeHighlight ns links) ↔ d ∈ ns ∧ o = 1%Q) ∧
  (∀ l o w, (l, (o, w)) ∈ link_styles (removeHighlight ns links) ↔
     l ∈ links ∧ o = (6 # 10)%Q ∧
     ((link_type l = "CALLS" ∧ w = 2%Z) ∨ (link_type l ≠ "CALLS" ∧ w = 1%Z))).
Proof.
  intros R. split_and!.
  - intros d o. simpl. rewrite elem_of_map. unfold node_opacity. split.
    + intros (d' & [= -> <-] & Hd). split; [done|].
      pose proof (emphasised_spec links focus d R) as E.
      destruct (String.eqb (node_id d) (node_id focus) || has _ _);
        [left | right]; split; try done; [by apply E | intros H%E; discriminate H].
    + intros [Hd H]. exists d. split; [|done]. f_equal.
      pose proof (emphasised_spec links focus d R) as E.
      destruct (String.eqb (node_id d) (node_id focus) || has _ _),
        H as [[He ->]|[He ->]]; try done.
      * destruct He. by apply E.
      * apply E in He. discriminate He.
  - intros l o w. simpl. rewrite elem_of_map.
    unfold link_opacity, link_stroke_width. split.
    + intros (l' & [= -> <- <-] & Hl). split; [done|].
      pose proof (incident_spec focus l (forallb_elem _ _ _ R Hl)) as E.
      destruct (incident focus l); [left | right]; split_and!; try done;
        [by apply E | intros H%E; discriminate H].
    + intros [Hl H]. exists l. split; [|done].
      pose proof (incident_spec focus l (forallb_elem _ _ _ R Hl)) as E.
      destruct (incident focus l), H as [(He & -> & ->)|(He & -> & ->)]; try done.
      * destruct He. by apply E.
      * apply E in He. discriminate He.
  - intros d o. simpl. rewrite elem_of_map. naive_solver.
  - intros l o w. simpl. rewrite elem_of_map. unfold baseline_width. split.
    + intros (l' & [= -> <- <-] & Hl). split_and!; try done.
      destruct (String.eqb_spec (link_type l) "CALLS"); [by left | by right].
    + intros (Hl & -> & H). exists l. split; [|done]. do 2 f_equal.
      destruct (String.eqb_spec (link_type l) "CALLS"), H as [[? ->]|[? ->]]; done.
Qed.

(** Hovering file A in the scenario graph. *)
Lemma highlight_emphasis_witness :
  forallb link_resolvable (links Examples.scenario) = true ∧
  ((Examples.classB, 1%Q) ∈
     node_styles (highlightConnected (nodes Examples.scenario)
                    (links Examples.scenario) Examples.fileA) ↔
   Examples.classB ∈ nodes Examples.scenario ∧
   ((emphasised (links Examples.scenario) Examples.fileA Examples.classB ∧ 1%Q = 1%Q) ∨
    (¬ emphasised (links Examples.scenario) Examples.fileA Examples.classB ∧
     1%Q = (3 # 10)%Q))).
Proof.
  split; [reflexivity|].
  apply (highlight_emphasis (nodes Examples.scenario) (links Examples.scenario)
           Examples.fileA).
  reflexivity.
Defined.

(** C8: the emphasis fails on an embedded endpoint whose id is the empty
    string.  Node B is hovered and linked to the node with id [""].  With
    the link's endpoints given as bare ids that neighbour gets opacity 1,
    and the link gets opacity 1 and width 3 when the neighbour is hovered;
    with the endpoints resolved to the node objects the same neighbour is
    dimmed to 0.3 and the same link to 0.1 and width 1, since
    [link.target.id || link.target] is then the object, which is neither
    [=== node.id] nor found by [connectedNodeIds.has(d.id)]. *)
Theorem highlight_dims_neighbour :
  neighbour [Examples.b_to_anon] Examples.nodeB Examples.anon ∧
  touches Examples.anon Examples.b_to_anon ∧
  node_opacity [Examples.b_to_anon] Examples.nodeB Examples.anon = (3 # 10)%Q ∧
  link_opacity Examples.anon Examples.b_to_anon = (1 # 10)%Q ∧
  link_stroke_width Examples.anon Examples.b_to_anon = 1%Z ∧
  endpoint_id (link_source Examples.b_to_anon_bare) =
    endpoint_id (link_source Examples.b_to_anon) ∧
  endpoint_id (link_target Examples.b_to_anon_bare) =
    endpoint_id (link_target Examples.b_to_anon) ∧
  link_type Examples.b_to_anon_bare = link_type Examples.b_to_anon ∧
  node_opacity [Examples.b_to_anon_bare] Examples.nodeB Examples.anon = 1%Q ∧
  link_opacity Examples.anon Examples.b_to_anon_bare = 1%Q ∧
  link_stroke_width Examples.anon Examples.b_to_anon_bare = 3%Z.
Proof.
  split_and!; try reflexivity.
  - exists Examples.b_to_anon. split; [by left | by left].
  - by right.
Qed.

End HighlightFacts.

(** ** Request/response operations *)

Ltac run_hook :=
  cbv [Requests.fetchGraphData Requests.pruneTree Requests.getSubgraph
       Requests.findPaths Requests.searchNodes Requests.getNodeDetails
       Requests.exportGraph Hook.clearGraph Hook.getGraphStats
       Ipc.backend_handler Ipc.callBackendAPI Ipc.invoke
       Requests.try_catch_finally Requests.try_catch Requests.await
       Requests.check_error Requests.read Requests.read_message
       Requests.cannot_read
       mbind Requests.M_bind Requests.bind mret Requests.M_ret Requests.ret
       Requests.dispatch Requests.console_error Requests.throw
       Requests.call Requests.run_op Requests.emitted Requests.settle
       Requests.nullable];
  simpl.

Section RequestFacts.
Import JS Graph Requests.

Variable type_error_message : nullish → string → string.

Local Notation check_error := (Requests.check_error type_error_message).
Local Notation fetchGraphData := (Requests.fetchGraphData type_error_message).
Local Notation pruneTree := (Requests.pruneTree type_error_message).
Local Notation getSubgraph := (Requests.getSubgraph type_error_message).
Local Notation findPaths := (Requests.findPaths type_error_message).
Local Notation searchNodes := (Requests.searchNodes type_error_message).
Local Notation getNodeDetails := (Requests.getNodeDetails type_error_message).
Local Notation exportGraph := (Requests.exportGraph type_error_message).
Local Notation call := (Requests.call type_error_message).
Local Notation run_op := (Requests.run_op type_error_message).
Local Notation emitted := (Requests.emitted type_error_message).

Lemma check_error_throws (r : response) (e : string) (w : world) :
  error r = Some e → truthy e = true →
  check_error (VObject r) w = (Throw (JsError (Some e)), w).
Proof. intros He Ht. unfold Requests.check_error. by rewrite He, Ht. Qed.

Lemma message_or_truthy (e fallback : string) :
  truthy e = true → message_or (Some e) fallback = e.
Proof. intros Ht. unfold message_or. by rewrite Ht. Qed.

Ltac run_request He Ht :=
  cbv [Requests.fetchGraphData Requests.pruneTree Requests.getSubgraph
       Requests.findPaths Requests.searchNodes Requests.getNodeDetails
       Requests.exportGraph try_catch_finally try_catch await read_message
       mbind M_bind bind mret M_ret ret dispatch console_error throw];
  simpl; rewrite (check_error_throws _ _ _ He Ht); simpl;
  rewrite ?(message_or_truthy _ _ Ht), ?Ht, <- ?app_assoc; simpl.

Lemma fetchGraphData_on_error (r : response) (e : string) (w : world) :
  error r = Some e → truthy e = true →
  fetchGraphData (Resolves r) w =
  (Return tt,
   {| dispatched := dispatched w ++
        [setGraphLoading true; setGraphError None;
         setGraphError (Some e); setGraphLoading false];
      console := console w ++ ["Error fetching graph data:"] |}).
Proof. intros He Ht. by run_request He Ht. Qed.

Lemma pruneTree_on_error (r : response) (e : string) (w : world) :
  error r = Some e → truthy e = true →
  pruneTree (Resolves r) w =
  (Return None,
   {| dispatched := dispatched w ++
        [setGraphLoading true; setGraphError (Some e); setGraphLoading false];
      console := console w ++ ["Error pruning tree:"] |}).
Proof. intros He Ht. by run_request He Ht. Qed.

Lemma getSubgraph_on_error (r : response) (e : string) (w : world) :
  error r = Some e → truthy e = true →
  getSubgraph (Resolves r) w =
  (Return None,
   {| dispatched := dispatched w;
      console := console w ++ ["Error getting subgraph:"] |}).
Proof. intros He Ht. by run_request He Ht. Qed.

Lemma findPaths_on_error (r : response) (e : string) (w : world) :
  error r = Some e → truthy e = true →
  findPaths (Resolves r) w =
  (Return [],
   {| dispatched := dispatched w;
      console := console w ++ ["Error finding paths:"] |}).
Proof. intros He Ht. by run_request He Ht. Qed.

Lemma searchNodes_on_error (r : response) (e : string) (w : world) :
  error r = Some e → truthy e = true →
  searchNodes (Resolves r) w =
  (Return [],
   {| dispatched := dispatched w;
      console := console w ++ ["Error searching nodes:"] |}).
Proof. intros He Ht. by run_request He Ht. Qed.

Lemma getNodeDetails_on_error (r : response) (e : string) (w : world) :
  error r = Some e → truthy e = true →
  getNodeDetails (Resolves r) w =
  (Return None,
   {| dispatched := dispatched w;
      console := console w ++ ["Error getting node details:"] |}).
Proof. intros He Ht. by run_request He Ht. Qed.

Lemma exportGraph_on_error (r : response) (e : string) (w : world) :
  error r = Some e → truthy e = true →
  exportGraph (Resolves r) w =
  (Return None,
   {| dispatched := dispatched w;
      console := console w ++ ["Error exporting graph:"] |}).
Proof. intros He Ht. by run_request He Ht. Qed.

Lemma drop_own_length {A} (l k : list A) : drop (length l) (l ++ k) = k.
Proof. induction l as [|x l IH]; [done | exact IH]. Qed.

(** C4, as amended: when the response carries a non-empty error, no
    operation dispatches setGraphData; fetchGraph and pruneTree dispatch
    setGraphError with the error message (between the loading flags), and
    getSubgraph, findPaths, searchNodes, getNodeDetails and exportGraph
    dispatch nothing at all: they log the error and return null or an
    empty list. *)
Theorem error_response_dispatches (op : operation) (r : response)
    (e : string) (w : world) :
  error r = Some e → truthy e = true →
  dispatched (run_op op (Resolves r) w) = dispatched w ++ emitted op (Resolves r) w ∧
  existsb is_setGraphData (emitted op (Resolves r) w) = false ∧
  emitted op (Resolves r) w =
    match op with
    | OpFetchGraph =>
        [setGraphLoading true; setGraphError None;
         setGraphError (Some e); setGraphLoading false]
    | OpPruneTree =>
        [setGraphLoading true; setGraphError (Some e); setGraphLoading false]
    | _ => []
    end ∧
  fst (call op (Resolves r) w) =
    match op with
    | OpFetchGraph => Undefined
    | OpFindPaths => Paths []
    | OpSearchNodes => Nodes []
    | _ => Null
    end ∧
  length (console (run_op op (Resolves r) w)) = S (length (console w)).
Proof.
  intros He Ht. unfold Requests.emitted, Requests.run_op.
  destruct op; simpl;
    rewrite ?(fetchGraphData_on_error r e w He Ht),
            ?(pruneTree_on_error r e w He Ht),
            ?(getSubgraph_on_error r e w He Ht),
            ?(findPaths_on_error r e w He Ht),
            ?(searchNodes_on_error r e w He Ht),
            ?(getNodeDetails_on_error r e w He Ht),
            ?(exportGraph_on_error r e w He Ht); simpl;
    rewrite ?drop_own_length, ?drop_all, ?app_nil_r, ?length_app; simpl;
    split_and!; try done; lia.
Qed.

End RequestFacts.

Section RequestScenario.
Import JS Graph Requests.

Local Notation call := (Requests.call v8_message).
Local Notation run_op := (Requests.run_op v8_message).
Local Notation emitted := (Requests.emitted v8_message).

(** C4, witness: pruneTree answered by the failed response. *)
Lemma error_response_dispatches_witness :
  emitted OpPruneTree (Resolves Examples.failed) empty_world =
    [setGraphLoading true; setGraphError (Some "backend down"); setGraphLoading false] ∧
  fst (call OpPruneTree (Resolves Examples.failed) empty_world) = Null.
Proof.
  pose proof (error_response_dispatches v8_message OpPruneTree Examples.failed
                "backend down" empty_world eq_refl eq_refl) as (_ & _ & He & Hr & _).
  by split.
Defined.

(** C4, counterexample: getSubgraph answered by a response that carries
    an error dispatches nothing, so no error status reaches the store. *)
Lemma getSubgraph_sets_no_error :
  carries_error Examples.failed ∧
  dispatched (run_op OpGetSubgraph (Resolves Examples.failed) empty_world) = [] ∧
  existsb is_error_set
    (dispatched (run_op OpGetSubgraph (Resolves Examples.failed) empty_world)) = false.
Proof.
  split_and!; try reflexivity. by exists "backend down".
Qed.

End RequestScenario.

(** ** ConnectionManager *)

Section ConnectionFacts.
Import Connection.

Lemma run_app (h : hook) (es1 es2 : list event) :
  run h (es1 ++ es2) = run (run h es1) es2.
Proof. apply foldl_app. Qed.

Lemma onerror_effect (h : hook) :
  isConnected (onerror h) = false ∧ timers (onerror h) = timers h ∧
  attempts (onerror h) = attempts h ∧ ws (onerror h) = ws h ∧ now (onerror h) = now h.
Proof. done. Qed.

Lemma onclose_effect (h : hook) :
  isConnected (onclose h) = false ∧
  timers (onclose h) = timers h ++ [(now h + reconnect_delay)%N] ∧
  attempts (onclose h) = attempts h ∧ ws (onclose h) = ws h ∧ now (onclose h) = now h.
Proof. done. Qed.

(** Only [Open] turns the flag on. *)
Lemma step_keeps_disconnected (h : hook) (e : event) :
  e ≠ Open → isConnected h = false → isConnected (step h e) = false.
Proof.
  intros Ne Hc. destruct e as [ok| |p| | |ok|ms| ]; simpl; try done.
  - by destruct ok.
  - destruct (ws h); [|done]. unfold onmessage.
    destruct p as [m|]; [|done]. destruct (on_envelope m) as [es|]; [|done].
    revert h Hc. induction es as [|x es IH]; intros h Hc; simpl; [done|].
    by apply IH.
  - by destruct (ws h).
  - by destruct (ws h).
  - destruct (timers h); [done|]. by destruct ok.
  - unfold cleanup. by destruct (ws h) as [[]|].
Qed.

Lemma run_keeps_disconnected (es : list event) (h : hook) :
  Open ∉ es → isConnected h = false → isConnected (run h es) = false.
Proof.
  revert h. induction es as [|e es IH]; intros h Hn Hc; simpl; [done|].
  apply not_elem_of_cons in Hn as [Hn1 Hn2].
  apply IH; [done|]. by apply step_keeps_disconnected.
Qed.

Lemma failures_cons (b : bool) (lat : N) (rounds : list (bool * N)) :
  failures ((b, lat) :: rounds) = failure b lat ++ failures rounds.
Proof. reflexivity. Qed.

Lemma failures_no_open (rounds : list (bool * N)) : Open ∉ failures rounds.
Proof.
  induction rounds as [|[b lat] rounds IH]; [apply not_elem_of_nil|].
  rewrite failures_cons.
  destruct b; simpl; repeat (apply not_elem_of_cons; split; [done|]); done.
Qed.

(** One failure round, from a state that holds a socket and has no
    timer pending. *)
Lemma failure_round (h : hook) (b : bool) (lat : N) :
  ws h ≠ None → timers h = [] →
  ws (run h (failure b lat)) = Some CONNECTING ∧
  timers (run h (failure b lat)) = [] ∧
  now (run h (failure b lat)) = (now h + lat + reconnect_delay)%N ∧
  attempts (run h (failure b lat)) =
    attempts h ++ [(now h + lat + reconnect_delay)%N] ∧
  isConnected (run h (failure b lat)) = false.
Proof.
  intros Hw Ht. destruct h as [c w ts t at_ ef]. simpl in *. subst ts.
  destruct w as [r|]; [|done].
  assert (N.max (t + lat) (t + lat + reconnect_delay) = t + lat + reconnect_delay)%N
    as Hmax by lia.
  destruct b; cbn [failure run foldl app step ws onerror onclose setIsConnected
                   emit set_ws setTimeout timers now set_now pop_timer tail
                   connectWebSocket attempts isConnected];
    rewrite Hmax; done.
Qed.

(** C5: a socket that fails fires its error event and then its close
    event, one that is closed fires the close event alone.  Either way
    isConnected is false from the first of these events on, and once the
    close event has been handled exactly one reconnect has been added to
    the pending timers, due 5000 ms later; nothing bounds how often this
    happens.  Across any number of consecutive failures (each an optional
    error event, then close, then the timer firing) there are exactly as
    many reconnect attempts as failures, each 5000 ms after the close
    before it, no timer is left pending, and isConnected is false after
    every failure and stays false until an open event. *)
Theorem reconnect_after_failures (h : hook) (rounds : list (bool * N)) :
  ws h ≠ None → timers h = [] →
  (isConnected (step h Error) = false ∧
   isConnected (run h [Error; Close]) = false ∧
   isConnected (step h Close) = false) ∧
  (timers (run h [Error; Close]) = timers h ++ [(now h + 5000)%N] ∧
   timers (run h [Close]) = timers h ++ [(now h + 5000)%N]) ∧
  attempts (run h (failures rounds)) = attempts h ++ attempt_times (now h) rounds ∧
  length (attempts (run h (failures rounds))) = length (attempts h) + length rounds ∧
  timers (run h (failures rounds)) = [] ∧
  (rounds ≠ [] → isConnected (run h (failures rounds)) = false) ∧
  (isConnected h = false →
   ∀ es, es `prefix_of` failures rounds → isConnected (run h es) = false) ∧
  isConnected (step (run h (failures rounds)) Open) = true.
Proof.
  intros Hw Ht.
  split; [by destruct h as [c [r|] ts t at_ ef]|].
  split; [by destruct h as [c [r|] ts t at_ ef]|].
  assert (∀ rounds h, ws h ≠ None → timers h = [] →
            attempts (run h (failures rounds)) =
              attempts h ++ attempt_times (now h) rounds ∧
            timers (run h (failures rounds)) = [] ∧
            ws (run h (failures rounds)) ≠ None ∧
            (rounds ≠ [] → isConnected (run h (failures rounds)) = false)) as Main.
  { clear. induction rounds as [|[b lat] rounds IH]; intros h Hw Ht.
    - simpl. by rewrite app_nil_r.
    - rewrite failures_cons, run_app.
      destruct (failure_round h b lat Hw Ht) as (W1 & T1 & N1 & A1 & C1).
      destruct (IH (run h (failure b lat))) as (A2 & T2 & W2 & C2);
        [by rewrite W1 | done |].
      rewrite A2, A1, N1, <- app_assoc. split_and!; try done.
      intros _. apply run_keeps_disconnected; [apply failures_no_open | done]. }
  destruct (Main rounds h Hw Ht) as (A & T & W & C).
  split_and!; try done.
  - rewrite A, length_app. f_equal. clear. generalize (now h).
    induction rounds as [|r rounds IH]; intros t; simpl; [done | by rewrite IH].
  - intros Hc es [rest Hes]. apply run_keeps_disconnected; [|done].
    intros Ho. apply (failures_no_open rounds). rewrite Hes.
    apply elem_of_app. by left.
  - simpl. by destruct (ws (run h (failures rounds))).
Qed.

(** C5, witness: three consecutive failures after a first connection, the
    first and the last with an error event before the close. *)
Lemma reconnect_after_failures_witness :
  attempts (run (run init [Mount true; Open])
              (failures [(true, 10); (false, 0); (true, 3)]%N)) =
  [0; 5010; 10010; 15013]%N ∧
  timers (run (run init [Mount true; Open]) [Error; Close]) = [5000%N].
Proof.
  pose proof (reconnect_after_failures (run init [Mount true; Open])
                [(true, 10); (false, 0); (true, 3)]%N) as H.
  destruct H as (_ & [H1 _] & H & _); [done | reflexivity |].
  rewrite H, H1. split; reflexivity.
Defined.

Lemma cleanup_effect (h : hook) :
  effects (cleanup h) =
    effects h ++ (if is_open (ws h) then [CloseCall] else []) ∧
  timers (cleanup h) = timers h.
Proof.
  unfold cleanup. destruct (ws h) as [[]|]; simpl; by rewrite ?app_nil_r.
Qed.

(** C6: the code at two teardowns.  With a reconnect pending, unmounting
    leaves the timer in place and it starts a new socket afterwards; with
    the socket open, the close issued by the cleanup makes onclose schedule
    a reconnect, which again runs after the teardown. *)
Theorem teardown_keeps_reconnect_timer :
  timers (run init [Mount true; Close; Unmount]) = [5000%N] ∧
  attempts (run init [Mount true; Close; Unmount]) = [0%N] ∧
  attempts (run init [Mount true; Close; Unmount; Timer true]) = [0; 5000]%N ∧
  ws (run init [Mount true; Close; Unmount; Timer true]) = Some CONNECTING ∧
  effects (run init [Mount true; Open; Unmount]) =
    [ConsoleLog "WebSocket connected"; Send "subscribe" "graph"; CloseCall] ∧
  attempts (run init [Mount true; Open; Unmount; Close; Timer true]) = [0; 5000]%N.
Proof. by vm_compute. Qed.

End ConnectionFacts.

(** ** GraphStateStore *)

Section StoreFacts.
Import JS Graph Store.

Lemma has_node_spec (g : snapshot) (i : string) :
  has_node g i = true ↔ i ∈ map node_id (nodes g).
Proof. apply bool_decide_eq_true. Qed.

Lemma id_survives_removal (ns : list node) (i j : string) :
  j ≠ i → j ∈ map node_id ns →
  j ∈ map node_id (List.filter (λ n, negb (String.eqb (node_id n) i)) ns).
Proof.
  intros Ne (n & Hn & Hin)%elem_of_map. apply elem_of_map. exists n.
  split; [done|]. apply elem_of_List_filter. split; [done|].
  apply negb_true_iff, String.eqb_neq. by rewrite Hn.
Qed.

Lemma references_false (i : string) (l : link) :
  negb (references i l) = true ↔
  endpoint_id (link_source l) ≠ i ∧ endpoint_id (link_target l) ≠ i.
Proof.
  unfold references.
  by rewrite negb_true_iff, orb_false_iff, !String.eqb_neq.
Qed.

Lemma applyDelta_invariant (g : snapshot) (d : delta) :
  link_invariant g → link_invariant (applyDelta g d).
Proof.
  intros Inv. destruct d as [n|i|l|l]; simpl.
  - destruct (has_node g (node_id n)); [done|].
    intros l Hl. simpl in *. destruct (Inv l Hl) as [Hs Ht].
    rewrite map_app. split; apply elem_of_app; by left.
  - intros l [Hl [Hs Ht]%references_false]%elem_of_List_filter. simpl.
    destruct (Inv l Hl) as [Is It].
    split; by apply id_survives_removal.
  - destruct (has_node g (endpoint_id (link_source l))) eqn:Hs; [|done].
    destruct (has_node g (endpoint_id (link_target l))) eqn:Ht; [|done].
    intros l' [Hl| ->%list_elem_of_singleton]%elem_of_app; simpl.
    + by apply Inv.
    + split; by apply has_node_spec.
  - intros l' [Hl _]%elem_of_List_filter. simpl. by apply Inv.
Qed.

Lemma reduce_invariant (g : snapshot) (a : Connection.action) :
  link_invariant g → link_invariant (reduce g a).
Proof.
  unfold reduce. destruct (delta_of_action a); [apply applyDelta_invariant | done].
Qed.

Lemma receive_invariant (g : snapshot) (m : Connection.envelope) :
  link_invariant g → link_invariant (receive g m).
Proof.
  unfold receive. generalize (dispatched_by m). intros acts. revert g.
  induction acts as [|a acts IH]; intros g Inv; simpl; [done|].
  by apply IH, reduce_invariant.
Qed.

(** C1: from a snapshot that satisfies the link invariant, every sequence
    of deltas, and every sequence of push messages fed through
    ws.onmessage, leads to a snapshot that satisfies it; after
    node_removed for an id, no node has that id and no link has it as
    source or target. *)
Theorem deltas_preserve_link_invariant (g : snapshot) (ds : list delta)
    (ms : list Connection.envelope) (i : string) :
  link_invariant g →
  link_invariant (foldl applyDelta g ds) ∧
  link_invariant (foldl receive g ms) ∧
  (i ∉ map node_id (nodes (applyDelta g (node_removed i)))) ∧
  (∀ l, l ∈ links (applyDelta g (node_removed i)) →
     endpoint_id (link_source l) ≠ i ∧ endpoint_id (link_target l) ≠ i) ∧
  receive g {| Connection.msg_type := "node_removed";
               Connection.msg_data := Some (Connection.DNodeId i) |} =
    applyDelta g (node_removed i).
Proof.
  intros Inv. split_and!.
  - revert g Inv. induction ds as [|d ds IH]; intros g Inv; simpl; [done|].
    by apply IH, applyDelta_invariant.
  - revert g Inv. induction ms as [|m ms IH]; intros g Inv; simpl; [done|].
    by apply IH, receive_invariant.
  - simpl. intros (n & Hn & [_ Hf]%elem_of_List_filter)%elem_of_map.
    apply negb_true_iff, String.eqb_neq in Hf. done.
  - simpl. intros l [_ H]%elem_of_List_filter. by apply references_false.
  - reflexivity.
Qed.

(** C1, witness: the scenario graph, then node B removed. *)
Lemma deltas_preserve_link_invariant_witness :
  link_invariant (foldl applyDelta Examples.scenario [node_removed "B"]) ∧
  links (foldl applyDelta Examples.scenario [node_removed "B"]) = [].
Proof.
  split; [|reflexivity].
  apply (deltas_preserve_link_invariant Examples.scenario [node_removed "B"] [] "B").
  intros l Hl. apply list_elem_of_In in Hl. simpl in Hl.
  destruct Hl as [<-|[<-|[]]]; split; apply list_elem_of_In; simpl; tauto.
Defined.

(** C7: node_added for an id already present leaves the snapshot as it is;
    applying node_added twice for the same id (the same node, or another
    node carrying that id) gives the same snapshot, hence the same node
    set, as applying it once; the same holds for the ADD_GRAPH_NODE action
    ws.onmessage dispatches. *)
Theorem node_added_idempotent (g : snapshot) (n : node) :
  (node_id n ∈ map node_id (nodes g) → applyDelta g (node_added n) = g) ∧
  (∀ n', node_id n' = node_id n →
     applyDelta (applyDelta g (node_added n)) (node_added n') =
       applyDelta g (node_added n)) ∧
  nodes (applyDelta (applyDelta g (node_added n)) (node_added n)) =
    nodes (applyDelta g (node_added n)) ∧
  (let a := Connection.ADD_GRAPH_NODE (Some (Connection.DNode n)) in
   reduce (reduce g a) a = reduce g a).
Proof.
  assert (∀ n', node_id n' = node_id n →
            applyDelta (applyDelta g (node_added n)) (node_added n') =
              applyDelta g (node_added n)) as Twice.
  { intros n' E. simpl. rewrite E.
    destruct (has_node g (node_id n)) eqn:H; simpl; [by rewrite H|].
    assert (has_node {| nodes := nodes g ++ [n]; links := links g |} (node_id n) = true)
      as -> by (apply has_node_spec; simpl; rewrite map_app; apply elem_of_app;
                right; by apply list_elem_of_singleton).
    done. }
  split_and!; try done.
  - intros H%has_node_spec. simpl. by rewrite H.
  - by rewrite Twice.
  - by apply Twice.
Qed.

End StoreFacts.

(** ** Request/response operations, every outcome *)


Section HookFacts.
Import JS Graph Requests Hook.

Variable type_error_message : nullish → string → string.

Local Notation check_error := (Requests.check_error type_error_message).
Local Notation cannot_read := (Requests.cannot_read type_error_message).
Local Notation fetchGraphData := (Requests.fetchGraphData type_error_message).
Local Notation pruneTree := (Requests.pruneTree type_error_message).
Local Notation call := (Requests.call type_error_message).
Local Notation run_op := (Requests.run_op type_error_message).
Local Notation clearGraph := (Hook.clearGraph type_error_message).

Lemma error_truthy_carries (r : response) :
  error_truthy r = true ↔ carries_error r.
Proof.
  unfold error_truthy, carries_error. destruct (error r) as [e|].
  - split; [intros H; by exists e | by intros (e' & [= <-] & H)].
  - split; [done | by intros (e' & [=] & _)].
Qed.

Lemma error_truthy_cases (r : response) :
  (error_truthy r = true ∧ ∃ e, error r = Some e ∧ truthy e = true) ∨
  (error_truthy r = false ∧ ∀ w, check_error (VObject r) w = (Return r, w)).
Proof.
  unfold error_truthy, Requests.check_error. destruct (error r) as [e|]; [|by right].
  destruct (truthy e) eqn:T; [left; eauto | by right].
Qed.

Lemma message_or_nonempty (m : option string) (fallback : string) :
  truthy fallback = true → truthy (message_or m fallback) = true.
Proof.
  intros H. unfold message_or. destruct m as [s|]; [|done].
  by destruct (truthy s) eqn:T.
Qed.

(** X1: what fetchGraphData does with every outcome of the getGraph
    call.  It first dispatches loading on and error cleared, and last
    loading off.  In between it dispatches the data (missing nodes or links
    replaced by empty arrays) for an answer without a truthy error field,
    and otherwise an error message that is never empty: the error field,
    the message of the rejection, the engine's message when the answer is
    null or undefined, or the fallback text.  It returns normally in all
    these cases.  When the call rejects with null or undefined, reading
    the message throws inside the catch block: nothing is dispatched in
    between and fetchGraphData itself rejects with the TypeError. *)
Theorem fetchGraphData_outcomes (api : outcome) (w : world) :
  match api with
  | Resolves r =>
      fst (fetchGraphData api w) = Return tt ∧
      dispatched (snd (fetchGraphData api w)) =
        dispatched w ++
        [setGraphLoading true; setGraphError None;
         if error_truthy r then setGraphError (error r)
         else setGraphData (Graph (transformed r));
         setGraphLoading false]
  | ResolvesNullish v =>
      fst (fetchGraphData api w) = Return tt ∧
      dispatched (snd (fetchGraphData api w)) =
        dispatched w ++
        [setGraphLoading true; setGraphError None;
         setGraphError
           (Some (message_or (Some (type_error_message v "error"))
                    "Failed to fetch graph data"));
         setGraphLoading false]
  | Rejects (JsError m) =>
      fst (fetchGraphData api w) = Return tt ∧
      dispatched (snd (fetchGraphData api w)) =
        dispatched w ++
        [setGraphLoading true; setGraphError None;
         setGraphError (Some (message_or m "Failed to fetch graph data"));
         setGraphLoading false] ∧
      truthy (message_or m "Failed to fetch graph data") = true ∧
      (m = Some (message_or m "Failed to fetch graph data") ∨
       message_or m "Failed to fetch graph data" = "Failed to fetch graph data")
  | Rejects (JsNullish v) =>
      fst (fetchGraphData api w) = Throw (cannot_read v "message") ∧
      dispatched (snd (fetchGraphData api w)) =
        dispatched w ++
        [setGraphLoading true; setGraphError None; setGraphLoading false]
  end.
Proof.
  destruct api as [r|v|[v|m]].
  - destruct (error_truthy_cases r) as [[T (e & He & Ht)]|[T Hc]]; rewrite T.
    + rewrite (fetchGraphData_on_error type_error_message r e w He Ht).
      split; [done|]. by rewrite He.
    + cbv [Requests.fetchGraphData try_catch_finally try_catch await
           mbind M_bind bind mret M_ret ret dispatch].
      simpl. rewrite Hc. simpl. split; [done|]. by rewrite <- !app_assoc.
  - run_hook. split; [done|]. by rewrite <- !app_assoc.
  - run_hook. split; [done|]. by rewrite <- !app_assoc.
  - run_hook. split; [done|]. split; [by rewrite <- !app_assoc|].
    split; [by apply message_or_nonempty|].
    unfold message_or. destruct m as [s|]; [|by right].
    destruct (truthy s); [by left | by right].
Qed.


(** X3: which calls reject.  The five query operations never do: for
    every outcome they settle with a value and dispatch nothing, handing
    back null or an empty list exactly when the call rejected, the answer
    was null or undefined, or the answer carried a truthy error.
    fetchGraphData and pruneTree reject in one case only, a call that
    rejected with null or undefined, and then with the TypeError raised by
    reading its message. *)
Theorem operation_rejections (op : operation) (api : outcome) (w : world) :
  ((∃ e, fst (call op api w) = Raised e) ↔
   is_query op = false ∧ ∃ v, api = Rejects (JsNullish v)) ∧
  (∀ v, is_query op = false → api = Rejects (JsNullish v) →
        fst (call op api w) = Raised (cannot_read v "message")) ∧
  (is_query op = true →
   dispatched (run_op op api w) = dispatched w ∧
   fst (call op api w) =
     match api, op with
     | Resolves r, OpFindPaths =>
         if error_truthy r then Paths [] else Paths (default [] (r_paths r))
     | Resolves r, OpSearchNodes =>
         if error_truthy r then Nodes [] else Nodes (default [] (r_nodes r))
     | Resolves r, _ => if error_truthy r then Null else Object r
     | _, OpFindPaths => Paths []
     | _, OpSearchNodes => Nodes []
     | _, _ => Null
     end).
Proof.
  assert (∀ r, fst (call op (Resolves r) w) =
               match op with
               | OpFetchGraph => Undefined
               | OpPruneTree => if error_truthy r then Null else Object r
               | OpFindPaths =>
                   if error_truthy r then Paths [] else Paths (default [] (r_paths r))
               | OpSearchNodes =>
                   if error_truthy r then Nodes [] else Nodes (default [] (r_nodes r))
               | _ => if error_truthy r then Null else Object r
               end ∧
               (is_query op = true →
                dispatched (run_op op (Resolves r) w) = dispatched w)) as Hres.
  { intros r.
    destruct (error_truthy_cases r) as [[T (e & He & Ht)]|[T Hc]]; rewrite T.
    - destruct op; unfold Requests.run_op, Requests.call;
        rewrite ?(fetchGraphData_on_error type_error_message r e w He Ht),
                ?(pruneTree_on_error type_error_message r e w He Ht),
                ?(getSubgraph_on_error type_error_message r e w He Ht),
                ?(findPaths_on_error type_error_message r e w He Ht),
                ?(searchNodes_on_error type_error_message r e w He Ht),
                ?(getNodeDetails_on_error type_error_message r e w He Ht),
                ?(exportGraph_on_error type_error_message r e w He Ht); simpl; done.
    - destruct op;
        cbv [Requests.call Requests.run_op Requests.settle Requests.nullable
             Requests.fetchGraphData Requests.pruneTree Requests.getSubgraph
             Requests.findPaths Requests.searchNodes Requests.getNodeDetails
             Requests.exportGraph try_catch_finally try_catch await
             mbind M_bind bind mret M_ret ret dispatch];
        simpl; rewrite Hc; simpl; done. }
  destruct api as [r|v|[v|m]].
  - destruct (Hres r) as [Hv Hd]. split_and!.
    + split.
      * intros [e He]. rewrite Hv in He.
        destruct op, (error_truthy r); discriminate He.
      * by intros (_ & v & [=]).
    + by intros v _ [=].
    + intros Hq. split; [by apply Hd|]. rewrite Hv. by destruct op.
  - split_and!.
    + split; [|by intros (_ & v' & [=])].
      intros [e He]. destruct op; by run_hook.
    + by intros v' _ [=].
    + intros Hq. destruct op; try done; by run_hook.
  - split_and!.
    + split.
      * intros [e He]. destruct op; try (by run_hook); split; try done; by exists v.
      * intros (Hq & _). destruct op; try done; run_hook; by eexists.
    + intros v' Hq [= <-]. destruct op; try done; by run_hook.
    + intros Hq. destruct op; try done; by run_hook.
  - split_and!.
    + split; [|by intros (_ & v' & [=])].
      intros [e He]. destruct op; by run_hook.
    + by intros v' _ [=].
    + intros Hq. destruct op; try done; by run_hook.
Qed.

(** X4: clearGraph returns true exactly when the call resolved with a
    truthy success field, and exactly then has it dispatched the empty
    graph; a rejected call or an answer without success changes nothing
    and returns false. *)
Theorem clearGraph_outcomes (api : outcome) (w : world) :
  ∃ b,
    fst (clearGraph api w) = Return b ∧
    (b = true ↔ ∃ r, api = Resolves r ∧ r_success r = true) ∧
    dispatched (snd (clearGraph api w)) =
      dispatched w ++ (if b then [setGraphData (Graph empty_graph)] else []).
Proof.
  destruct api as [r|v|e].
  - run_hook. destruct (r_success r) eqn:S; simpl.
    + exists true. split_and!; try done. split; [by exists r | done].
    + exists false. rewrite app_nil_r. split_and!; try done.
      split; [done | intros (r' & [= <-] & H); congruence].
  - run_hook. exists false. rewrite app_nil_r. split_and!; try done.
    split; [done | by intros (r' & [=] & _)].
  - run_hook. exists false. rewrite app_nil_r. split_and!; try done.
    split; [done | by intros (r' & [=] & _)].
Qed.

Lemma getGraphStats_cases (api : outcome) (w : world) :
  dispatched (snd (getGraphStats api w)) = dispatched w ∧
  fst (getGraphStats api w) =
    match api with
    | Resolves r => Return (VObject r)
    | ResolvesNullish v => Return (VNullish v)
    | Rejects _ => Return (VNullish JsNull)
    end.
Proof. destruct api; by run_hook. Qed.

End HookFacts.

Section HookScenario.
Import JS Graph Requests Hook.

(** X3, witness: searchNodes and pruneTree on a call that rejected with
    null. *)
Lemma operation_rejections_witness :
  fst (Requests.call v8_message OpSearchNodes (Rejects (JsNullish JsNull)) empty_world) =
    Nodes [] ∧
  fst (Requests.call v8_message OpPruneTree (Rejects (JsNullish JsNull)) empty_world) =
    Raised (JsError (Some "Cannot read properties of null (reading 'message')")).
Proof.
  split.
  - pose proof (operation_rejections v8_message OpSearchNodes
                  (Rejects (JsNullish JsNull)) empty_world) as (_ & _ & H).
    exact (proj2 (H eq_refl)).
  - pose proof (operation_rejections v8_message OpPruneTree
                  (Rejects (JsNullish JsNull)) empty_world) as (_ & H & _).
    exact (H JsNull eq_refl eq_refl).
Defined.

End HookScenario.

(** ** The push connection, every run *)

Section TraceFacts.
Import Connection Trace.

Lemma emit_all_fields (es : list effect) (h : hook) :
  isConnected (foldl (λ h e, emit e h) h es) = isConnected h ∧
  ws (foldl (λ h e, emit e h) h es) = ws h ∧
  timers (foldl (λ h e, emit e h) h es) = timers h ∧
  now (foldl (λ h e, emit e h) h es) = now h ∧
  attempts (foldl (λ h e, emit e h) h es) = attempts h ∧
  effects (foldl (λ h e, emit e h) h es) = effects h ++ es.
Proof.
  revert h. induction es as [|e es IH]; intros h; simpl.
  - by rewrite app_nil_r.
  - destruct (IH (emit e h)) as (-> & -> & -> & -> & -> & ->). simpl.
    by rewrite <- app_assoc.
Qed.

Lemma on_envelope_unrecognized (m : envelope) :
  msg_type m ∉ recognized → on_envelope m = Some [].
Proof.
  unfold recognized, on_envelope. rewrite !not_elem_of_cons.
  intros (H1 & H2 & H3 & H4 & H5 & _).
  by rewrite !(proj2 (String.eqb_neq _ _)).
Qed.

Lemma on_envelope_length (m : envelope) (es : list effect) :
  on_envelope m = Some es → length es ≤ 1.
Proof.
  unfold on_envelope. intros E.
  repeat case_match; simplify_eq; simpl; lia.
Qed.

(** X6: a push message never touches the connection: isConnected, the
    socket, the pending timers and the attempts stay as they are and the
    handler has at most one effect.  A payload that is no JSON, or a
    node_removed without data, is logged and dispatches nothing; a message
    of a type without a case leaves the state unchanged. *)
Theorem onmessage_keeps_connection (parsed : option envelope) (h : hook) :
  (isConnected (onmessage parsed h) = isConnected h ∧
   ws (onmessage parsed h) = ws h ∧
   timers (onmessage parsed h) = timers h ∧
   attempts (onmessage parsed h) = attempts h) ∧
  (∃ es, effects (onmessage parsed h) = effects h ++ es ∧ length es ≤ 1 ∧
         ((parsed = None ∨
           ∃ m, parsed = Some m ∧ msg_type m = "node_removed" ∧ msg_data m = None) →
          es = [ConsoleError "Error handling WebSocket message:"])) ∧
  (∀ m, parsed = Some m → msg_type m ∉ recognized → onmessage parsed h = h).
Proof.
  split; [|split].
  - unfold onmessage. destruct parsed as [m|]; [|done].
    destruct (on_envelope m) as [es|]; [|done].
    by destruct (emit_all_fields es h) as (-> & -> & -> & _ & -> & _).
  - unfold onmessage. destruct parsed as [m|].
    + destruct (on_envelope m) as [es|] eqn:E.
      * exists es. destruct (emit_all_fields es h) as (_ & _ & _ & _ & _ & ->).
        split; [done|]. split.
        -- by apply (on_envelope_length m).
        -- intros [?|(m' & [= <-] & Ht & Hd)]; [done|].
           unfold on_envelope in E. rewrite Ht, Hd in E. done.
      * eexists. split; [done|]. split; [simpl; lia | done].
    + eexists. split; [done|]. split; [simpl; lia | done].
  - intros m -> Hm. unfold onmessage.
    by rewrite (on_envelope_unrecognized m Hm).
Qed.

Lemma step_accounting (h : hook) (e : event) :
  length (attempts (step h e)) + length (timers (step h e)) ≤
  length (attempts h) + length (timers h) +
  (if is_mount e then 1 else 0) + (if is_close e then 1 else 0).
Proof.
  destruct e as [ok| |p| | |ok|ms| ]; simpl.
  - destruct ok; simpl; rewrite length_app; simpl; lia.
  - destruct (ws h); simpl; lia.
  - destruct (ws h); [|lia].
    destruct (onmessage_keeps_connection p h) as [(_ & _ & -> & ->) _]. lia.
  - destruct (ws h); simpl; lia.
  - destruct (ws h); simpl; rewrite ?length_app; simpl; lia.
  - destruct (timers h) as [|due ts] eqn:E; [rewrite E; simpl; lia|].
    destruct ok; simpl; rewrite length_app, E; simpl; lia.
  - lia.
  - unfold cleanup. destruct (ws h) as [[]|]; simpl; lia.
Qed.

(** X7: along every run of events, the connection attempts made plus the
    reconnects still pending never exceed what the run started with plus
    the mounts and the close events it contains: a reconnect is only ever
    the answer to a close, one per close. *)
Theorem attempts_bounded_by_closes (h : hook) (es : list event) :
  length (attempts (run h es)) + length (timers (run h es)) ≤
  length (attempts h) + length (timers h) + count is_mount es + count is_close es.
Proof.
  revert h. induction es as [|e es IH]; intros h; simpl; [unfold count; simpl; lia|].
  specialize (IH (step h e)). pose proof (step_accounting h e) as S.
  unfold count in *. simpl.
  destruct (is_mount e), (is_close e); simpl; lia.
Qed.

Lemma open_in_or_not (es : list event) : Open ∈ es ∨ Open ∉ es.
Proof.
  induction es as [|e es [IH|IH]].
  - right. apply not_elem_of_nil.
  - left. by apply elem_of_cons; right.
  - destruct e; try (right; apply not_elem_of_cons; by split).
    left. by apply elem_of_cons; left.
Qed.

(** X8: isConnected is off at the start and only an open event turns it
    on: every run after which it is on contains an open event.  A
    WebSocket constructor that throws, at mount or when a reconnect timer
    fires, turns it off and schedules no further reconnect. *)
Theorem connected_needs_open (es : list event) (h : hook) :
  (isConnected (run init es) = true → Open ∈ es) ∧
  (isConnected (step h (Mount false)) = false ∧
   timers (step h (Mount false)) = timers h) ∧
  (timers h ≠ [] →
   isConnected (step h (Timer false)) = false ∧
   timers (step h (Timer false)) = tail (timers h)).
Proof.
  split; [|split].
  - intros H. destruct (open_in_or_not es) as [|Hn]; [done|].
    by rewrite (run_keeps_disconnected es init Hn eq_refl) in H.
  - done.
  - intros Ht. simpl. by destruct (timers h).
Qed.

(** X26: the teardown can run any number of times: the first run calls
    close on an open socket, which leaves it closing, and does nothing to a
    socket in any other state or to no socket; every further run does
    nothing; no run touches isConnected, the pending timers or the
    attempts. *)
Theorem cleanup_idempotent (h : hook) :
  cleanup (cleanup h) = cleanup h ∧
  length (List.filter (λ e, match e with CloseCall => true | _ => false end)
            (effects (cleanup (cleanup h)))) ≤
    S (length (List.filter (λ e, match e with CloseCall => true | _ => false end)
                 (effects h))) ∧
  isConnected (cleanup h) = isConnected h ∧
  timers (cleanup h) = timers h ∧
  attempts (cleanup h) = attempts h ∧
  (ws h = Some OPEN →
   effects (cleanup h) = effects h ++ [CloseCall] ∧ ws (cleanup h) = Some CLOSING) ∧
  (ws h ≠ Some OPEN → cleanup h = h).
Proof.
  unfold cleanup. destruct (ws h) as [[]|] eqn:E; simpl; rewrite ?E; simpl;
    split_and!; try done; try lia.
  rewrite List.filter_app, length_app. simpl. lia.
Qed.

End TraceFacts.

(** ** The filtered view as an operation on snapshots *)

Section FilterAlgebra.
Import JS Graph FilterEngine FilterOrder.

Variable toLowerCase : string → string.

Local Notation search_ok := (FilterEngine.search_ok toLowerCase).
Local Notation node_pass := (FilterEngine.node_pass toLowerCase).
Local Notation filteredData := (FilterEngine.filteredData toLowerCase).

Lemma List_filter_idem {A} (p : A → bool) (l : list A) :
  List.filter p (List.filter p l) = List.filter p l.
Proof.
  induction l as [|x l IH]; simpl; [done|].
  destruct (p x) eqn:E; simpl; [by rewrite E, IH | done].
Qed.

Lemma List_filter_all {A} (p : A → bool) (l : list A) :
  (∀ x, x ∈ l → p x = true) → List.filter p l = l.
Proof.
  induction l as [|x l IH]; intros H; simpl; [done|].
  rewrite (H x) by (by left). f_equal. apply IH. intros y Hy. apply H. by right.
Qed.

Lemma List_filter_sublist {A} (p : A → bool) (l : list A) :
  List.filter p l `sublist_of` l.
Proof.
  induction l as [|x l IH]; simpl; [done|].
  destruct (p x); [by apply sublist_skip | by apply sublist_cons].
Qed.

(** X9: filtering is idempotent: the view of a view, under the same
    criteria, is that view. *)
Theorem filteredData_idempotent (g : snapshot) (f : filters) :
  filteredData (Some (filteredData (Some g) f)) f = filteredData (Some g) f.
Proof. simpl. by rewrite !List_filter_idem. Qed.

(** X10: the view never invents or reorders anything: its nodes and its
    links are the snapshot's, in the snapshot's order, with some left out;
    so it has at most as many of each. *)
Theorem filteredData_sublist (g : snapshot) (f : filters) :
  nodes (filteredData (Some g) f) `sublist_of` nodes g ∧
  links (filteredData (Some g) f) `sublist_of` links g ∧
  length (nodes (filteredData (Some g) f)) ≤ length (nodes g) ∧
  length (links (filteredData (Some g) f)) ≤ length (links g).
Proof.
  simpl.
  pose proof (List_filter_sublist (node_pass f) (nodes g)) as Hn.
  pose proof (List_filter_sublist
                (link_pass f (list_to_set (map node_id
                   (List.filter (node_pass f) (nodes g))))) (links g)) as Hl.
  split_and!; try done; by apply sublist_length.
Qed.

Lemma set_has_mono (s1 s2 : gset string) (k : key) :
  s1 ⊆ s2 → set_has s1 k = true → set_has s2 k = true.
Proof.
  intros Hs. destruct k as [x|n]; simpl; [|done].
  rewrite !bool_decide_eq_true. apply Hs.
Qed.

Lemma node_pass_widens (f1 f2 : filters) (n : node) :
  widens f1 f2 → node_pass f1 n = true → node_pass f2 n = true.
Proof.
  intros (Ht & He & Hc & Hs). rewrite !node_pass_spec, <- Hs.
  intros (H1 & H2 & H3). split_and!; [by apply Ht | done |].
  destruct H3 as [H3|H3]; [left; by apply He | by right].
Qed.

(** X11: allowing more never hides anything: when the second criteria
    allow every type the first allow, show errors and calls whenever the
    first do, and search for the same term, every node and every link of
    the first view is in the second. *)
Theorem filteredData_widens (g : snapshot) (f1 f2 : filters) :
  widens f1 f2 →
  (∀ n, n ∈ nodes (filteredData (Some g) f1) → n ∈ nodes (filteredData (Some g) f2)) ∧
  (∀ l, l ∈ links (filteredData (Some g) f1) → l ∈ links (filteredData (Some g) f2)).
Proof.
  intros W.
  assert (∀ n, n ∈ List.filter (node_pass f1) (nodes g) →
               n ∈ List.filter (node_pass f2) (nodes g)) as Hn.
  { intros n [Hin Hp]%elem_of_List_filter. apply elem_of_List_filter.
    split; [done | by apply (node_pass_widens f1 f2)]. }
  split; [exact Hn|]. simpl.
  intros l [Hin Hp]%elem_of_List_filter. apply elem_of_List_filter.
  split; [done|]. unfold link_pass in *.
  assert ((list_to_set (map node_id (List.filter (node_pass f1) (nodes g))) : gset string)
          ⊆ list_to_set (map node_id (List.filter (node_pass f2) (nodes g)))) as Hsub.
  { intros x. rewrite !elem_of_list_to_set, !elem_of_map.
    intros (n & <- & H). exists n. split; [done | by apply Hn]. }
  destruct (set_has _ (endpoint_key (link_source l))) eqn:Hs; [|done].
  destruct (set_has _ (endpoint_key (link_target l))) eqn:Ht; [|done].
  rewrite (set_has_mono _ _ _ Hsub Hs), (set_has_mono _ _ _ Hsub Ht). simpl in *.
  destruct W as (_ & _ & Hc & _).
  destruct (showCalls f1); simpl in *; [by rewrite Hc|].
  destruct (String.eqb (link_type l) "CALLS"); [done|]. by rewrite andb_false_r.
Qed.

(** X12: under the initial criteria a snapshot whose nodes all have one
    of the five built-in types, and whose links join its nodes (by bare id
    or by an embedded node with a non-empty id), is shown whole; and in any
    snapshot whatever, a node of any other type is never shown by them. *)
Theorem default_view_is_whole (g : snapshot) :
  (presentable g → filteredData (Some g) default_filters = g) ∧
  (∀ n, node_type n ∉ nodeTypes default_filters →
        n ∉ nodes (filteredData (Some g) default_filters)).
Proof.
  split.
  - intros [Hn Hl].
    assert (List.filter (node_pass default_filters) (nodes g) = nodes g) as En.
    { apply List_filter_all. intros n Hin. apply node_pass_spec.
      split_and!; [by apply Hn | by left | by left]. }
    simpl. rewrite En. destruct g as [ns ls]. simpl in *. f_equal.
    apply List_filter_all. intros l Hin. destruct (Hl l Hin) as (R & Hs & Ht).
    apply andb_true_iff in R as [Rs Rt].
    apply link_pass_complete; try done. by left.
  - intros n Ht [_ Hp]%elem_of_List_filter.
    apply node_pass_spec in Hp as (H & _). done.
Qed.

Lemma List_filter_ext {A} (p q : A → bool) (l : list A) :
  (∀ x, p x = q x) → List.filter p l = List.filter q l.
Proof.
  intros H. induction l as [|x l IH]; simpl; [done|]. by rewrite H, IH.
Qed.

Lemma search_ok_lower (f1 f2 : filters) (n : node) :
  toLowerCase "" = "" →
  toLowerCase (searchTerm f1) = toLowerCase (searchTerm f2) →
  search_ok f1 n = search_ok f2 n.
Proof.
  intros Hnil. unfold FilterEngine.search_ok.
  destruct (searchTerm f1) as [|c1 s1], (searchTerm f2) as [|c2 s2];
    intros Hs; simpl; try done.
  - by rewrite <- Hs, Hnil, !includes_empty.
  - by rewrite Hs, Hnil, !includes_empty.
  - by rewrite Hs.
Qed.

Lemma same_search_same_view (g : option snapshot) (f1 f2 : filters) :
  toLowerCase "" = "" →
  same_but_search f1 f2 →
  toLowerCase (searchTerm f1) = toLowerCase (searchTerm f2) →
  filteredData g f1 = filteredData g f2.
Proof.
  intros Hnil (Ht & He & Hc) Hs. destruct g as [g|]; [|done]. simpl.
  assert (∀ n, node_pass f1 n = node_pass f2 n) as Hn.
  { intros n. unfold FilterEngine.node_pass.
    by rewrite Ht, He, (search_ok_lower f1 f2 n Hnil Hs). }
  rewrite (List_filter_ext _ _ (nodes g) Hn). f_equal.
  apply List_filter_ext. intros l. unfold link_pass. by rewrite Hc.
Qed.

(** X25: the case of the search term does not matter.  Two criteria that
    differ only in searchTerm give the same view of every snapshot, and of
    no snapshot, when their search terms are equal once lower-cased by the
    platform; for ASCII terms, when they are the same letter by letter, a
    capital A-Z counting as its small letter. *)
Theorem search_term_case_irrelevant (g : option snapshot) (f1 f2 : filters) :
  agrees_on_ascii toLowerCase →
  same_but_search f1 f2 →
  (toLowerCase (searchTerm f1) = toLowerCase (searchTerm f2) →
   filteredData g f1 = filteredData g f2) ∧
  (is_ascii (searchTerm f1) = true → is_ascii (searchTerm f2) = true →
   same_letters (searchTerm f1) (searchTerm f2) = true →
   filteredData g f1 = filteredData g f2).
Proof.
  intros Hlow Hsame.
  pose proof (agrees_on_empty toLowerCase Hlow) as Hnil.
  split.
  - by apply same_search_same_view.
  - intros A1 A2 Hs. apply same_search_same_view; [done | done |].
    rewrite (Hlow _ A1), (Hlow _ A2). by apply same_letters_spec.
Qed.

End FilterAlgebra.

Section FilterAlgebraScenario.
Import JS Graph FilterEngine FilterOrder.

Local Notation filteredData := (FilterEngine.filteredData ascii_toLowerCase).

(** X11, witness: from files only to the initial criteria. *)
Lemma filteredData_widens_witness :
  Examples.fileA ∈ nodes (filteredData (Some Examples.scenario) default_filters).
Proof.
  apply (filteredData_widens ascii_toLowerCase Examples.scenario
           (Examples.only_types ["File"]) default_filters).
  - split_and!; try done. intros t Ht. apply list_elem_of_singleton in Ht as ->.
    apply list_elem_of_In. simpl. tauto.
  - apply list_elem_of_In. simpl. tauto.
Defined.

(** X12, witness: the scenario graph. *)
Lemma default_view_is_whole_witness :
  filteredData (Some Examples.scenario) default_filters = Examples.scenario.
Proof.
  apply (default_view_is_whole ascii_toLowerCase Examples.scenario). split.
  - intros n Hn. apply list_elem_of_In in Hn. simpl in Hn.
    destruct Hn as [<-|[<-|[]]]; apply list_elem_of_In; simpl; tauto.
  - intros l Hl. apply list_elem_of_In in Hl. simpl in Hl.
    destruct Hl as [<-|[<-|[]]]; split_and!; try reflexivity;
      apply list_elem_of_In; simpl; tauto.
Defined.

(** X25, witness: ALPHA and alpha on the scenario graph. *)
Lemma search_term_case_irrelevant_witness :
  agrees_on_ascii ascii_toLowerCase ∧
  same_but_search (Examples.search "ALPHA") (Examples.search "alpha") ∧
  filteredData (Some Examples.scenario) (Examples.search "ALPHA") =
  filteredData (Some Examples.scenario) (Examples.search "alpha").
Proof.
  split; [exact ascii_agrees|]. split; [done|].
  by apply (search_term_case_irrelevant ascii_toLowerCase (Some Examples.scenario)
              (Examples.search "ALPHA") (Examples.search "alpha") ascii_agrees).
Defined.

End FilterAlgebraScenario.

(** ** Hover emphasis, both ways *)

Section HighlightSymmetry.
Import JS Graph Highlighter.

Lemma adds_swap (a b : node) (l : link) :
  adds a (node_id b) l ↔ adds b (node_id a) l.
Proof. unfold adds. tauto. Qed.

Lemma bool_eq_iff (b1 b2 : bool) : (b1 = true ↔ b2 = true) → b1 = b2.
Proof. destruct b1, b2; intuition congruence. Qed.

(** X13: emphasis is symmetric and reflexive: whatever the links, a node
    is at full opacity while another is hovered exactly when that other is
    at full opacity while the first is hovered, and the hovered node itself
    is at full opacity. *)
Theorem node_opacity_symmetric (links : list link) (a b : node) :
  node_opacity links a b = node_opacity links b a ∧
  node_opacity links a a = 1%Q.
Proof.
  unfold node_opacity. split.
  - replace (String.eqb (node_id a) (node_id b) ||
             has (connectedNodeIds links b) (node_id a))
      with (String.eqb (node_id b) (node_id a) ||
            has (connectedNodeIds links a) (node_id b)); [done|].
    apply bool_eq_iff. rewrite !orb_true_iff, !String.eqb_eq, !has_connected.
    split; (intros [E|(l & Hl & H)]; [by left | right; exists l; split; [done|]]);
      by apply adds_swap.
  - by rewrite String.eqb_refl.
Qed.

End HighlightSymmetry.

(** ** Dragging *)

Section DragFacts.
Import Drag.

Lemma moves_spec (ps : list (Q * Q)) (s : simulation * datum) :
  fst (moves ps s) = fst s ∧
  x (snd (moves ps s)) = x (snd s) ∧ y (snd (moves ps s)) = y (snd s) ∧
  fx (snd (moves ps s)) =
    match last ps with Some p => Some (fst p) | None => fx (snd s) end ∧
  fy (snd (moves ps s)) =
    match last ps with Some p => Some (snd p) | None => fy (snd s) end.
Proof.
  revert s. induction ps as [|p ps IH]; intros [sim d]; [done|].
  change (moves (p :: ps) (sim, d)) with (moves ps (dragged (fst p) (snd p) (sim, d))).
  destruct (IH (dragged (fst p) (snd p) (sim, d))) as (-> & -> & -> & -> & ->).
  destruct ps as [|q ps]; [done|].
  change (last (p :: q :: ps)) with (last (q :: ps)).
  destruct (last (q :: ps)) eqn:E; [done|].
  by apply last_None in E.
Qed.

(** X14: a drag gesture pins the node for its duration only: after
    dragstarted and any pointer moves the pin is the last pointer position
    (the node's own position before the first move), and after dragended
    the pin is gone and the handlers have left x and y as they were.  When
    no other gesture is active at either end the simulation is restarted
    once and its alphaTarget is back at 0; when one is active at both ends
    the simulation is not touched. *)
Theorem gesture_unpins (a0 a1 : N) (ps : list (Q * Q)) (sim : simulation)
    (d : datum) :
  (fx (snd (moves ps (dragstarted a0 (sim, d)))) =
     match last ps with Some p => Some (fst p) | None => Some (x d) end ∧
   fy (snd (moves ps (dragstarted a0 (sim, d)))) =
     match last ps with Some p => Some (snd p) | None => Some (y d) end) ∧
  (fx (snd (gesture a0 a1 ps (sim, d))) = None ∧
   fy (snd (gesture a0 a1 ps (sim, d))) = None ∧
   x (snd (gesture a0 a1 ps (sim, d))) = x d ∧
   y (snd (gesture a0 a1 ps (sim, d))) = y d) ∧
  (a0 = 0%N ∧ a1 = 0%N →
   alphaTarget (fst (gesture a0 a1 ps (sim, d))) = 0%Q ∧
   restarts (fst (gesture a0 a1 ps (sim, d))) = S (restarts sim)) ∧
  (a0 ≠ 0%N ∧ a1 ≠ 0%N → fst (gesture a0 a1 ps (sim, d)) = sim).
Proof.
  unfold gesture.
  destruct (moves_spec ps (dragstarted a0 (sim, d))) as (Hs & Hx & Hy & Hfx & Hfy).
  destruct (moves ps (dragstarted a0 (sim, d))) as [sim' d'] eqn:E.
  simpl in *. subst sim'. unfold inactive.
  split_and!; try done.
  all: intros [H0 H1]; destruct (N.eqb_spec a0 0), (N.eqb_spec a1 0); try done.
  all: try by destruct sim.
Qed.

End DragFacts.

(** ** From the backend to the store *)

Section IpcFacts.
Import JS Graph Requests Ipc Bridge.

Variable type_error_message : nullish → string → string.
Variable remote_message : js_error → string.

Local Notation cannot_read := (Requests.cannot_read type_error_message).
Local Notation fetchGraphData := (Requests.fetchGraphData type_error_message).
Local Notation call := (Requests.call type_error_message).
Local Notation emitted := (Requests.emitted type_error_message).
Local Notation backend_handler := (Ipc.backend_handler type_error_message).
Local Notation invoke := (Ipc.invoke type_error_message remote_message).

(** The message of a response that is not ok is never empty. *)
Lemma api_error_truthy (line : string) : error_truthy_line line = true.
Proof. done. Qed.

(** X15: what a backend-backed IPC handler settles with.  It dispatches
    nothing.  It hands on the parsed body of an ok response, be it null,
    and turns a failure into an object with an error field: the message of
    what was caught, or, for a response that is not ok, the text API
    error: followed by the status, which is never empty.  It rejects in
    one case only: when what was caught is null or undefined, reading its
    message throws inside the catch block, and the handler rejects with
    that TypeError. *)
Theorem backend_handler_outcomes (endpoint : string) (f : fetch_outcome)
    (w : world) :
  dispatched (snd (backend_handler endpoint f w)) = dispatched w ∧
  fst (backend_handler endpoint f w) =
    match f with
    | FetchRejects (JsNullish v) | FetchResponds true _ (Rejects (JsNullish v)) =>
        Throw (cannot_read v "message")
    | FetchRejects (JsError m) | FetchResponds true _ (Rejects (JsError m)) =>
        Return (VObject (error_object m))
    | FetchResponds false line _ =>
        Return (VObject (error_object (Some ("API error: " +:+ line))))
    | FetchResponds true _ (Resolves body) => Return (VObject body)
    | FetchResponds true _ (ResolvesNullish v) => Return (VNullish v)
    end ∧
  ((∃ e, fst (backend_handler endpoint f w) = Throw e) ↔
   ∃ v, f = FetchRejects (JsNullish v) ∨
        ∃ line, f = FetchResponds true line (Rejects (JsNullish v))) ∧
  (∀ line, error_truthy_line line = true).
Proof.
  split_and!.
  - destruct f as [[v|m]|[] line [body|v|[v|m]]]; by run_hook.
  - destruct f as [[v|m]|[] line [body|v|[v|m]]]; by run_hook.
  - split.
    + intros [e He].
      destruct f as [[v|m]|[] line [body|v|[v|m]]]; try (by run_hook);
        exists v; [by left | right; by exists line].
    + intros (v & [->|(line & ->)]); run_hook; by eexists.
  - apply api_error_truthy.
Qed.

Lemma fetchGraphData_on_error_object (m : option string) (w : world) :
  dispatched (snd (fetchGraphData (Resolves (error_object m)) w)) =
  dispatched w ++
  [setGraphLoading true; setGraphError None;
   match m with
   | Some s => if truthy s then setGraphError (Some s)
               else setGraphData (Graph Hook.empty_graph)
   | None => setGraphData (Graph Hook.empty_graph)
   end;
   setGraphLoading false].
Proof.
  run_hook. destruct m as [s|]; [destruct (truthy s) eqn:T|]; simpl;
    rewrite ?T, <- ?app_assoc; done.
Qed.

Lemma fetchGraphData_on_rejection (m : option string) (w : world) :
  dispatched (snd (fetchGraphData (Rejects (JsError m)) w)) =
  dispatched w ++
  [setGraphLoading true; setGraphError None;
   setGraphError (Some (message_or m "Failed to fetch graph data"));
   setGraphLoading false].
Proof. run_hook. by rewrite <- !app_assoc. Qed.

Lemma emitted_fetch (api : outcome) (w : world) (l : list action) :
  dispatched (snd (fetchGraphData api w)) = dispatched w ++ l →
  emitted OpFetchGraph api w = l.
Proof.
  intros H. unfold Requests.emitted, Requests.run_op, Requests.call.
  destruct (fetchGraphData api w) as [[] w'] eqn:E; simpl in *;
    by rewrite H, drop_own_length.
Qed.

(** X16: what a failed backend call does to the store when the graph is
    fetched through the get-graph handler.  A response that is not ok makes
    fetchGraphData dispatch setGraphError with the text API error: and the
    status, and a rejection with a non-empty message that message; no graph
    data is dispatched.  A rejection whose error has no message, or an
    empty one, comes through as an answer without error, and the store
    receives the empty graph in place of an error.  A rejection with null
    or undefined makes the handler itself reject, and the store receives
    the message of the error the invoke rejects with, or the fallback text
    when that is empty.  The body of an ok response comes through as it
    is, also when it is null. *)
Theorem backend_failure_reaches_store (f : fetch_outcome) (w1 w2 : world) :
  match f with
  | FetchResponds true _ (Resolves body) => invoke "/graph" f w1 = Resolves body
  | FetchResponds true _ (ResolvesNullish v) =>
      invoke "/graph" f w1 = ResolvesNullish v
  | FetchResponds false line _ =>
      emitted OpFetchGraph (invoke "/graph" f w1) w2 =
        [setGraphLoading true; setGraphError None;
         setGraphError (Some ("API error: " +:+ line)); setGraphLoading false]
  | FetchRejects (JsError m) | FetchResponds true _ (Rejects (JsError m)) =>
      emitted OpFetchGraph (invoke "/graph" f w1) w2 =
        [setGraphLoading true; setGraphError None;
         match m with
         | Some s => if truthy s then setGraphError (Some s)
                     else setGraphData (Graph Hook.empty_graph)
         | None => setGraphData (Graph Hook.empty_graph)
         end;
         setGraphLoading false]
  | FetchRejects (JsNullish v) | FetchResponds true _ (Rejects (JsNullish v)) =>
      emitted OpFetchGraph (invoke "/graph" f w1) w2 =
        [setGraphLoading true; setGraphError None;
         setGraphError
           (Some (message_or (Some (remote_message (cannot_read v "message")))
                    "Failed to fetch graph data"));
         setGraphLoading false]
  end.
Proof.
  destruct f as [[v|m]|[] line [body|v|[v|m]]]; try done.
  - change (invoke "/graph" (FetchRejects (JsNullish v)) w1)
      with (Rejects (JsError (Some (remote_message (cannot_read v "message"))))).
    apply emitted_fetch, fetchGraphData_on_rejection.
  - change (invoke "/graph" (FetchRejects (JsError m)) w1)
      with (Resolves (error_object m)).
    apply emitted_fetch, fetchGraphData_on_error_object.
  - change (invoke "/graph" (FetchResponds true line (Rejects (JsNullish v))) w1)
      with (Rejects (JsError (Some (remote_message (cannot_read v "message"))))).
    apply emitted_fetch, fetchGraphData_on_rejection.
  - change (invoke "/graph" (FetchResponds true line (Rejects (JsError m))) w1)
      with (Resolves (error_object m)).
    apply emitted_fetch, fetchGraphData_on_error_object.
  - change (invoke "/graph" (FetchResponds false line (Resolves body)) w1)
      with (Resolves (error_object (Some ("API error: " +:+ line)))).
    apply emitted_fetch, (fetchGraphData_on_error_object (Some ("API error: " +:+ line))).
  - change (invoke "/graph" (FetchResponds false line (ResolvesNullish v)) w1)
      with (Resolves (error_object (Some ("API error: " +:+ line)))).
    apply emitted_fetch, (fetchGraphData_on_error_object (Some ("API error: " +:+ line))).
  - change (invoke "/graph" (FetchResponds false line (Rejects (JsNullish v))) w1)
      with (Resolves (error_object (Some ("API error: " +:+ line)))).
    apply emitted_fetch, (fetchGraphData_on_error_object (Some ("API error: " +:+ line))).
  - change (invoke "/graph" (FetchResponds false line (Rejects (JsError m))) w1)
      with (Resolves (error_object (Some ("API error: " +:+ line)))).
    apply emitted_fetch, (fetchGraphData_on_error_object (Some ("API error: " +:+ line))).
Qed.

(** X5: what the statistics and the clear operation make of a backend
    call through their handlers.  A failure the handler turned into an
    object with an error field is an ordinary answer to them: getGraphStats
    returns that object as the statistics.  It returns null when the body
    of an ok response is null, and when the handler rejected, which it does
    for a caught null or undefined.  clearGraph returns false and
    dispatches nothing in all these cases, and also when the body is null
    or undefined; only the body of an ok response that is an object can
    make it return true. *)
Theorem stats_and_clear_on_failure (f : fetch_outcome) (w1 w2 : world) :
  fst (Hook.getGraphStats (invoke "/graph/stats" f w1) w2) =
    match f with
    | FetchResponds true _ (Resolves body) => Return (VObject body)
    | FetchResponds true _ (ResolvesNullish v) => Return (VNullish v)
    | FetchResponds false line _ =>
        Return (VObject (error_object (Some ("API error: " +:+ line))))
    | FetchRejects (JsError m) | FetchResponds true _ (Rejects (JsError m)) =>
        Return (VObject (error_object m))
    | FetchRejects (JsNullish _) | FetchResponds true _ (Rejects (JsNullish _)) =>
        Return (VNullish JsNull)
    end ∧
  dispatched (snd (Hook.getGraphStats (invoke "/graph/stats" f w1) w2)) =
    dispatched w2 ∧
  match f with
  | FetchResponds true _ (Resolves body) => True
  | _ =>
      fst (Hook.clearGraph type_error_message (invoke "/graph/clear" f w1) w2) =
        Return false ∧
      dispatched (snd (Hook.clearGraph type_error_message
                         (invoke "/graph/clear" f w1) w2)) =
        dispatched w2
  end.
Proof.
  destruct f as [[v|m]|[] line [body|v|[v|m]]]; run_hook; done.
Qed.

Lemma awaited_cases (development : bool) (te : js_error)
    (reply : string → outcome) (op : operation) :
  awaited development te reply op =
    match op with
    | OpFetchGraph => Some (reply "get-graph")
    | _ => Some (Rejects te)
    end.
Proof. by destruct development, op. Qed.

(** X17: of the seven operations of the hook only the graph fetch finds
    its method on the preload bridge.  pruneTree, getSubgraph, findPaths,
    searchNodes, getNodeDetails and exportGraph call a method the bridge
    does not have, in development as in production; the TypeError is
    caught, so whatever the backend would answer they return null or an
    empty list and dispatch no graph data, and pruneTree reports the
    TypeError's message as the store error. *)
Theorem unexposed_operations_fail (development : bool) (te : option string)
    (reply : string → outcome) (op : operation) (w : world) :
  awaited development (JsError te) reply OpFetchGraph = Some (reply "get-graph") ∧
  (op ≠ OpFetchGraph →
   awaited development (JsError te) reply op = Some (Rejects (JsError te)) ∧
   fst (call op (Rejects (JsError te)) w) =
     match op with
     | OpFindPaths => Paths []
     | OpSearchNodes => Nodes []
     | _ => Null
     end ∧
   emitted op (Rejects (JsError te)) w =
     match op with
     | OpPruneTree =>
         [setGraphLoading true; setGraphError te; setGraphLoading false]
     | _ => []
     end).
Proof.
  split; [apply awaited_cases|]. intros Hop.
  split; [rewrite awaited_cases; by destruct op|].
  destruct op; try done; unfold Requests.emitted; run_hook;
    rewrite <- ?app_assoc, ?drop_own_length, ?drop_all; done.
Qed.

(** X18: the bridge and the main process agree on the channels, in
    development as in production: the channels the bridge methods invoke
    are exactly the channels with a handler, in the same order, and no
    method and no channel occurs twice. *)
Theorem bridge_channels_handled (development : bool) :
  map snd (invokers development) = handled development ∧
  NoDup (map fst (invokers development)) ∧
  NoDup (handled development) ∧
  (∀ m, m ∈ listeners → assoc m (invokers development) = None).
Proof.
  split_and!.
  - by destruct development.
  - destruct development; apply (bool_decide_unpack _); by vm_compute.
  - destruct development; apply (bool_decide_unpack _); by vm_compute.
  - intros m Hm. unfold listeners in Hm.
    repeat (apply elem_of_cons in Hm as [->|Hm]; [by destruct development|]).
    by apply elem_of_nil in Hm.
Qed.

End IpcFacts.

(** ** WindowManager *)

Section WindowFacts.
Import WindowManager.

Lemma get_put (k k' : string) (v : value) (o : options) :
  get k (put k' v o) = if String.eqb k k' then Some v else get k o.
Proof.
  induction o as [|[k1 v1] o IH]; simpl.
  - by destruct (String.eqb k k').
  - destruct (String.eqb_spec k' k1) as [->|Hne]; simpl.
    + by destruct (String.eqb k k1).
    + destruct (String.eqb_spec k k1) as [->|Hne'].
      * by rewrite (proj2 (String.eqb_neq k1 k')).
      * exact IH.
Qed.

Lemma get_absent (k : string) (o : options) :
  k ∉ map fst o → get k o = None.
Proof.
  induction o as [|[k1 v1] o IH]; simpl; [done|].
  intros [Hne Hn]%not_elem_of_cons.
  by rewrite (proj2 (String.eqb_neq k k1)), IH.
Qed.

Lemma get_spread (k : string) (a b : options) :
  NoDup (map fst b) →
  get k (spread a b) =
    match get k b with Some v => Some v | None => get k a end.
Proof.
  unfold spread. revert a. induction b as [|[k1 v1] b IH]; intros a Hd; [done|].
  simpl in *. apply NoDup_cons in Hd as [Hk Hd]. rewrite (IH _ Hd), get_put.
  destruct (String.eqb_spec k k1) as [->|Hne]; [|done].
  by rewrite (get_absent k1 b Hk).
Qed.

Lemma map_get_set (k k' : string) (v : nat) (l : list (string * nat)) :
  map_get k (map_set k' v l) = if String.eqb k k' then Some v else map_get k l.
Proof.
  induction l as [|[k1 v1] l IH]; simpl.
  - by destruct (String.eqb k k').
  - destruct (String.eqb_spec k' k1) as [->|Hne]; simpl.
    + by destruct (String.eqb k k1).
    + destruct (String.eqb_spec k k1) as [->|Hne'].
      * by rewrite (proj2 (String.eqb_neq k1 k')).
      * exact IH.
Qed.

Lemma map_get_delete (k k' : string) (l : list (string * nat)) :
  map_get k (map_delete k' l) = if String.eqb k k' then None else map_get k l.
Proof.
  unfold map_delete. induction l as [|[k1 v1] l IH]; simpl.
  - by destruct (String.eqb k k').
  - destruct (String.eqb_spec k' k1) as [->|Hne]; simpl.
    + rewrite IH. by destruct (String.eqb k k1).
    + rewrite IH. destruct (String.eqb_spec k k1) as [->|Hne']; [|done].
      by rewrite (proj2 (String.eqb_neq k1 k')).
Qed.

Lemma closed_keeps_absent (w : nat) (k : string) (hs : list (nat * string))
    (ws : list (string * nat)) :
  map_get k ws = None →
  map_get k (foldl (λ ws h, if Nat.eqb (fst h) w then map_delete (snd h) ws else ws)
               ws hs) = None.
Proof.
  revert ws. induction hs as [|[w1 k1] hs IH]; intros ws H; simpl; [done|].
  apply IH. destruct (Nat.eqb w1 w); [|done].
  rewrite map_get_delete, H. by destruct (String.eqb k k1).
Qed.

Lemma closed_deletes (w : nat) (k : string) (hs : list (nat * string))
    (ws : list (string * nat)) :
  (w, k) ∈ hs →
  map_get k (foldl (λ ws h, if Nat.eqb (fst h) w then map_delete (snd h) ws else ws)
               ws hs) = None.
Proof.
  revert ws. induction hs as [|[w1 k1] hs IH]; intros ws H; [by apply elem_of_nil in H|].
  apply elem_of_cons in H as [[= <- <-]|H]; simpl.
  - apply closed_keeps_absent. rewrite Nat.eqb_refl, map_get_delete.
    by rewrite String.eqb_refl.
  - by apply IH.
Qed.

Lemma for_each_live_spec (c : nat → call) (l : list (string * nat)) (m : manager) :
  let m' := foldl (λ m kv, if negb (isDestroyed (snd kv) m)
                           then do_call (c (snd kv)) m else m) m l in
  calls m' = calls m ++ map c (List.filter (live m) (map snd l)) ∧
  mainWindow m' = mainWindow m ∧ windows m' = windows m ∧
  destroyed m' = destroyed m ∧ windowState m' = windowState m ∧
  on_closed m' = on_closed m ∧ once_ready m' = once_ready m ∧ fresh m' = fresh m.
Proof.
  revert m. induction l as [|[k w] l IH]; intros m; simpl.
  - by rewrite app_nil_r.
  - unfold live at 1. destruct (negb (isDestroyed w m)) eqn:E; simpl.
    + destruct (IH (do_call (c w) m)) as (-> & -> & -> & -> & -> & -> & -> & ->).
      simpl. rewrite <- app_assoc. done.
    + apply IH.
Qed.

(** X19: saving the window state and restoring it on the same display
    puts the main window back on the bounds it reported when they lie
    within the work area, and maximizes it when it was maximized; for
    bounds that start left of or above the work area, or reach beyond it,
    nothing is restored, not even the maximized state.  The minimized flag
    is saved but never acted on, and a manager without main window saves
    and restores nothing. *)
Theorem save_then_restore (obs : observation) (timestamp : Z)
    (workAreaSize : area) (m : manager) (w : nat) :
  mainWindow m = Some w →
  added m (restoreWindowState workAreaSize (saveWindowState obs timestamp m)) =
    (if on_screen (getBounds obs) workAreaSize
     then setBounds w (getBounds obs) ::
          (if isMaximized obs then [maximize w] else [])
     else []) ∧
  (∀ m', mainWindow m' = None →
         saveWindowState obs timestamp m' = m' ∧
         restoreWindowState workAreaSize m' = m').
Proof.
  intros Hw. split.
  - unfold added, restoreWindowState, saveWindowState, isValidPosition, on_screen.
    rewrite Hw. simpl. rewrite ?Hw.
    destruct (_ && _); simpl; [|by rewrite drop_all].
    destruct (getBounds obs) as [x0 y0 w0 h0]. simpl.
    destruct (isMaximized obs); simpl;
      rewrite <- ?app_assoc, drop_own_length; done.
  - intros m' Hn. unfold saveWindowState, restoreWindowState. by rewrite Hn.
Qed.

(** X19, witness: a window at (10, 20), 800 by 600 and maximized, on a
    1920 by 1080 work area. *)
Lemma save_then_restore_witness :
  added (new (Some 0) None (Area 1920 1080))
    (restoreWindowState (Area 1920 1080)
       (saveWindowState (Observation (Bounds 10 20 800 600) true false true true) 0
          (new (Some 0) None (Area 1920 1080)))) =
  [setBounds 0 (Bounds 10 20 800 600); maximize 0].
Proof.
  by destruct (save_then_restore
                 (Observation (Bounds 10 20 800 600) true false true true) 0
                 (Area 1920 1080) (new (Some 0) None (Area 1920 1080)) 0 eq_refl)
    as [H _].
Defined.

(** X20: a child window is registered under its name as soon as it is
    created, and other names are left alone.  Creating a second window
    under the same name replaces the registration without closing the
    first; when the first is closed later, its listener deletes the name,
    so the second window, still open, is no longer found under it. *)
Theorem same_name_unregisters_newer (preload name : string) (o1 o2 : options)
    (m : manager) :
  let r1 := createChildWindow preload name o1 m in
  let r2 := createChildWindow preload name o2 (snd r1) in
  fst r1 ≠ fst r2 ∧
  getWindow name (snd r1) = Some (fst r1) ∧
  getWindow name (snd r2) = Some (fst r2) ∧
  (∀ other, other ≠ name → getWindow other (snd r2) = getWindow other m) ∧
  added m (snd r2) =
    [construct (fst r1) (spread (defaultOptions preload m) o1);
     construct (fst r2) (spread (defaultOptions preload m) o2)] ∧
  getWindow name (closed (fst r1) (snd r2)) = None ∧
  destroyed (closed (fst r1) (snd r2)) = destroyed m ∪ {[fst r1]}.
Proof.
  simpl. unfold getWindow, added. simpl. split_and!.
  - lia.
  - by rewrite map_get_set, String.eqb_refl.
  - by rewrite map_get_set, String.eqb_refl.
  - intros other Hne. by rewrite !map_get_set, !(proj2 (String.eqb_neq other name)).
  - by rewrite <- app_assoc, drop_own_length.
  - apply closed_deletes. rewrite !elem_of_app, !list_elem_of_singleton. tauto.
  - done.
Qed.

(** X21: closeWindow, closeAllChildWindows, destroy, focusMainWindow,
    hideAllWindows and showAllWindows never call a method on a window
    that is destroyed, and never construct one; they only add calls. *)
Theorem methods_spare_destroyed (op : method) (m : manager) :
  calls (perform op m) = calls m ++ added m (perform op m) ∧
  destroyed (perform op m) = destroyed m ∧
  (∀ c, c ∈ added m (perform op m) →
        (target c ∉ destroyed m) ∧ ∀ o, c ≠ construct (target c) o).
Proof.
  assert (∀ w, negb (isDestroyed w m) = true → w ∉ destroyed m) as Live.
  { intros w H. apply negb_true_iff in H. by apply bool_decide_eq_false in H. }
  assert (∀ (c : nat → call) (m1 : manager) (pre : list call),
            (∀ w, target (c w) = w ∧ ∀ o, c w ≠ construct w o) →
            destroyed m1 = destroyed m → calls m1 = calls m ++ pre →
            (∀ x, x ∈ pre → (target x ∉ destroyed m) ∧ ∀ o, x ≠ construct (target x) o) →
            calls (for_each_live c m1) = calls m ++ added m (for_each_live c m1) ∧
            destroyed (for_each_live c m1) = destroyed m ∧
            (∀ x, x ∈ added m (for_each_live c m1) →
                  (target x ∉ destroyed m) ∧ ∀ o, x ≠ construct (target x) o)) as Loop.
  { intros c m1 pre Hc Hd Hcalls Hpre. unfold for_each_live, added.
    destruct (for_each_live_spec c (windows m1) m1) as (-> & _ & _ & -> & _).
    rewrite Hcalls, <- app_assoc, drop_own_length. split_and!; try done.
    intros x [Hx|Hx]%elem_of_app; [by apply Hpre|].
    apply elem_of_map in Hx as (w & <- & [_ Hw]%elem_of_List_filter).
    destruct (Hc w) as [-> Hn]. split; [|done].
    unfold live, isDestroyed in Hw. rewrite Hd in Hw. by apply Live. }
  assert (∀ x : call, x ∈ ([] : list call) →
            (target x ∉ destroyed m) ∧ ∀ o, x ≠ construct (target x) o) as Nil
    by (intros x Hx; by apply elem_of_nil in Hx).
  destruct op as [name| | |obs| | ]; simpl.
  - unfold closeWindow, added. destruct (map_get name (windows m)) as [w|];
      [destruct (negb (isDestroyed w m)) eqn:E|]; simpl;
      rewrite ?drop_own_length, ?drop_all, ?app_nil_r; split_and!; try done.
    intros c ->%list_elem_of_singleton. split; [by apply Live | done].
  - unfold closeAllChildWindows. simpl.
    apply (Loop close m []); try done. by rewrite app_nil_r.
  - unfold destroy, closeAllChildWindows, added. simpl.
    apply (Loop close m []); try done. by rewrite app_nil_r.
  - unfold focusMainWindow, main_alive, added.
    destruct (mainWindow m) as [w|]; [destruct (negb (isDestroyed w m)) eqn:E|];
      simpl; rewrite ?drop_all, ?app_nil_r; try by split_and!.
    destruct (isMinimized obs); simpl;
      rewrite <- ?app_assoc, drop_own_length; split_and!; try done;
      intros c Hc; repeat (apply elem_of_cons in Hc as [->|Hc]);
      try (by apply elem_of_nil in Hc); (split; [by apply Live | done]).
  - unfold hideAllWindows, main_alive.
    destruct (mainWindow m) as [w|]; [destruct (negb (isDestroyed w m)) eqn:E|].
    + apply (Loop hide _ [hide w]); try done.
      intros x ->%list_elem_of_singleton. split; [by apply Live | done].
    + apply (Loop hide m []); try done. by rewrite app_nil_r.
    + apply (Loop hide m []); try done. by rewrite app_nil_r.
  - unfold showAllWindows, main_alive.
    destruct (mainWindow m) as [w|]; [destruct (negb (isDestroyed w m)) eqn:E|].
    + apply (Loop show _ [show w]); try done.
      intros x ->%list_elem_of_singleton. split; [by apply Live | done].
    + apply (Loop show m []); try done. by rewrite app_nil_r.
    + apply (Loop show m []); try done. by rewrite app_nil_r.
Qed.

(** X22: closeAllChildWindows closes every registered window that is
    not destroyed, in registration order, and leaves the registry empty;
    destroy does the same and drops the main window, after which the
    statistics show no main window and no child, and window events no
    longer save any state. *)
Theorem destroy_empties (obs : observation) (timestamp : Z) (m : manager) :
  (windows (closeAllChildWindows m) = [] ∧
   added m (closeAllChildWindows m) =
     map close (List.filter (live m) (map snd (windows m)))) ∧
  (mainWindow (destroy m) = None ∧ windows (destroy m) = [] ∧
   added m (destroy m) = added m (closeAllChildWindows m)) ∧
  getWindowStats obs (destroy m) =
    {| mainWindowExists := None; childWindowCount := 0;
       childWindows := []; mainWindowState := None |} ∧
  saveWindowState obs timestamp (destroy m) = destroy m.
Proof.
  unfold destroy, closeAllChildWindows, added, for_each_live. simpl.
  destruct (for_each_live_spec close (windows m) m) as (-> & _).
  by rewrite drop_own_length.
Qed.

Lemma round_half_bounds (n : Z) :
  (n - round_half n ≤ round_half n ≤ n - round_half n + 1)%Z.
Proof.
  unfold round_half.
  pose proof (Z.div_mod (n + 1) 2). pose proof (Z.mod_pos_bound (n + 1) 2). lia.
Qed.

(** X23: centerWindow moves the window, with one setPosition call, to
    where the margin on the left equals the margin on the right or exceeds
    it by one pixel, and likewise above and below, whether or not the
    window is smaller than the work area; without a window it does
    nothing. *)
Theorem centerWindow_centres (w : nat) (b : bounds) (workAreaSize : area)
    (m : manager) :
  (∃ x y,
     added m (centerWindow (Some w) b workAreaSize m) = [setPosition w x y] ∧
     (awidth workAreaSize - bwidth b - x ≤ x ≤
      awidth workAreaSize - bwidth b - x + 1)%Z ∧
     (aheight workAreaSize - bheight b - y ≤ y ≤
      aheight workAreaSize - bheight b - y + 1)%Z) ∧
  centerWindow None b workAreaSize m = m.
Proof.
  split; [|done]. do 2 eexists. unfold added. simpl.
  rewrite drop_own_length. split; [done|]. split; apply round_half_bounds.
Qed.

(** X24: createChildWindow constructs exactly one window, with the
    caller's value for every option the caller gives and the default for
    every other; so unless the caller overrides them the window is modal,
    hidden until ready, a child of the main window and isolated from Node.
    The window is shown once, at its first ready-to-show event. *)
Theorem createChildWindow_options (preload name : string) (o : options)
    (m : manager) (k : string) :
  NoDup (map fst o) →
  let w := fst (createChildWindow preload name o m) in
  let m' := snd (createChildWindow preload name o m) in
  ∃ wo,
    added m m' = [construct w wo] ∧
    get k wo =
      match get k o with
      | Some v => Some v
      | None => get k (defaultOptions preload m)
      end ∧
    (get "modal" o = None → get "modal" wo = Some (VBool true)) ∧
    (get "show" o = None → get "show" wo = Some (VBool false)) ∧
    (get "parent" o = None → get "parent" wo = Some (VWindow (mainWindow m))) ∧
    (get "webPreferences" o = None →
     get "webPreferences" wo = Some (VWebPreferences false true preload)) ∧
    added m' (ready_to_show w m') = [show w] ∧
    ready_to_show w (ready_to_show w m') = ready_to_show w m'.
Proof.
  intros Hd w m'. subst w m'. eexists. unfold added. simpl.
  rewrite drop_own_length.
  split; [done|]. split; [by apply get_spread|].
  split_and!; try (intros H; by rewrite (get_spread _ _ _ Hd), H).
  - unfold ready_to_show. simpl.
    rewrite bool_decide_eq_true_2 by (apply elem_of_app; right; by left).
    simpl. by rewrite drop_own_length.
  - assert (fresh m ∈ once_ready m ++ [fresh m]) as Hin
      by (apply elem_of_app; right; by left).
    unfold ready_to_show at 2 3. simpl.
    rewrite (bool_decide_eq_true_2 _ Hin).
    unfold ready_to_show. simpl. rewrite bool_decide_eq_false_2; [done|].
    intros [_ H]%elem_of_List_filter. by rewrite Nat.eqb_refl in H.
Qed.

(** X24, witness: the options of the settings window. *)
Lemma createChildWindow_options_witness :
  ∃ wo,
    added (new (Some 0) None (Area 1920 1080))
      (snd (createChildWindow "preload.js" "settings"
              [("width", VNum 600); ("height", VNum 500);
               ("resizable", VBool false); ("title", VStr "Settings")]
              (new (Some 0) None (Area 1920 1080)))) = [construct 1 wo] ∧
    get "width" wo = Some (VNum 600) ∧
    get "modal" wo = Some (VBool true).
Proof.
  destruct (createChildWindow_options "preload.js" "settings"
              [("width", VNum 600); ("height", VNum 500);
               ("resizable", VBool false); ("title", VStr "Settings")]
              (new (Some 0) None (Area 1920 1080)) "width")
    as (wo & H1 & H2 & H3 & _).
  - apply (bool_decide_unpack _). by vm_compute.
  - exists wo. split; [exact H1|]. split; [exact H2 | by apply H3].
Defined.

End WindowFacts.
